(** * Cascade hashing matcher over an image collection

    A shallow embedding of
    [openMVG/matching_image_collection/Cascade_Hashing_Matcher_Regions.cpp]:
    the grouping of the requested pairs, the zero-mean descriptor, the
    hashed index of every used image, and the pairwise matching loop with
    its ratio test, index swap, de-duplication and insertion into the
    putative-match container.

    The C++ standard containers are finite maps and sets of stdpp, iterated
    in ascending key order as [std::map] and [std::set] are.  The hashing
    engine, the two de-duplication helpers and the float arithmetic live in
    other files of the library; they are interfaces (type classes) here, and
    the properties proved hold for every implementation that meets the
    contracts stated below.  View identifiers and descriptor indices
    ([IndexT], 32 bits) are natural numbers: the code compares and stores
    them, and computes nothing with them but [index * 2]. *)

From Stdlib Require Import QArith.
From stdpp Require Import gmap strings list sorting.

(** ** Data model *)

(** [matching::IndMatch]: a pair of local descriptor indices. *)
Record IndMatch := mkIndMatch { i_ : nat; j_ : nat }.

Abbreviation IndMatches := (list IndMatch).

Global Instance IndMatch_eq_dec : EqDecision IndMatch.
Proof. solve_decision. Defined.

Global Instance IndMatch_inhabited : Inhabited IndMatch :=
  populate (mkIndMatch 0 0).

(** The template parameter [ScalarT] of [impl::Match]. *)
Inductive ScalarT := ScalarT_uchar | ScalarT_float.

(** [typeid(T).name()] is implementation defined. *)
Class TypeInfo := { typeid_name : ScalarT → string }.

(** The [float] operations the pipeline uses: the constant [0.0f], the
    product and the comparison [<]. *)
Class FloatOps (F : Type) := {
  f0 : F;
  fmul : F → F → F;
  fltb : F → F → bool
}.

Global Instance FloatOps_inhabited `{FloatOps F} : Inhabited F := populate f0.

(** Modelled from the spec: [Square] of openMVG/numeric is outside this file;
    the spec squares the ratio, so it is the product of a float with
    itself. *)
Definition Square `{FloatOps F} (x : F) : F := fmul x x.

(** [features::Regions], as far as the matcher reads it. *)
Record Regions (F : Type) := mkRegions {
  Type_id : string;
  RegionCount : nat;
  DescriptorLength : nat;
  DescriptorRawData : list Byte.byte;
  GetRegionsPositions : list (F * F)
}.
Arguments mkRegions {F}.
Arguments Type_id {F}.
Arguments RegionCount {F}.
Arguments DescriptorLength {F}.
Arguments DescriptorRawData {F}.
Arguments GetRegionsPositions {F}.

(** [sfm::Regions_Provider]. *)
Record Regions_Provider (F : Type) := mkProvider {
  IsBinary : bool;
  provider_Type_id : string;
  get : nat → Regions F
}.
Arguments mkProvider {F}.
Arguments IsBinary {F}.
Arguments provider_Type_id {F}.
Arguments get {F}.

(** [Eigen::Map<BaseMat>]: a row-major view of a raw buffer; the scalar
    type of the coefficients is the template parameter. *)
Record BaseMat := mkBaseMat {
  mat_data : list Byte.byte;
  mat_rows : nat;
  mat_cols : nat
}.

(** [Eigen::MatrixXf] as the list of its rows, [Eigen::VectorXf] as a list. *)
Abbreviation MatrixXf F := (list (list F)) (only parsing).
Abbreviation VectorXf F := (list F) (only parsing).

(** ** The collaborators outside this file *)

(** [matching::CascadeHasher] (cascade_hasher.hpp), a parameter of the
    development.  [GetZeroMeanDescriptor] is used at two matrix types, the
    view of a raw buffer and [Eigen::MatrixXf].  [Match_HashedDescriptions]
    takes the query first and the base second; it returns the candidate
    records and their distances, two per answered query. *)
Class CascadeHasherOps (F : Type) := {
  CascadeHasher : Type;
  HashedDescriptions : Type;
  CascadeHasher_new : CascadeHasher;
  HashedDescriptions_new : HashedDescriptions;
  Init : CascadeHasher → nat → CascadeHasher;
  GetZeroMeanDescriptor : ScalarT → BaseMat → VectorXf F;
  GetZeroMeanDescriptor_f : MatrixXf F → VectorXf F;
  CreateHashedDescriptions :
    CascadeHasher → ScalarT → BaseMat → VectorXf F → HashedDescriptions;
  Match_HashedDescriptions :
    CascadeHasher → ScalarT →
    HashedDescriptions → BaseMat → HashedDescriptions → BaseMat →
    IndMatches * list F
}.

(** [IndMatch::getDeduplicated] and [IndMatchDecorator<float>::getDeduplicated]
    (the latter is given the positions of both images), parameters as well. *)
Class MatchFilters (F : Type) := {
  IndMatch_getDeduplicated : IndMatches → IndMatches;
  IndMatchDecorator_getDeduplicated :
    list (F * F) → list (F * F) → IndMatches → IndMatches
}.

(** Modelled from the spec: [matching::NNdistanceRatio] is in
    matching_filters.hpp, outside this file.  The distances come in groups of
    [NN]; group [i] is kept when its first distance is below [fratio] times
    its second one. *)
Definition NNdistanceRatio `{FloatOps F}
    (distances : list F) (NN : nat) (fratio : F) : list nat :=
  filter (λ i, fltb (distances !!! (i * NN))
                    (fmul fratio (distances !!! (i * NN + 1))) = true)
         (seq 0 (length distances `div` NN)).

(** Modelled from the spec: [C_Progress] of third_party/progress, the
    progress sink with [restart], increment and a cancellation query.  The
    answer of [hasBeenCanceled] may change during the run; it is a function of
    the number of queries made so far, which [polls] counts. *)
Record C_Progress := mkProgress {
  hasBeenCanceled_at : nat → bool;
  polls : nat;
  count : nat;
  expected_count : nat
}.

Definition C_Progress_dummy : C_Progress :=
  mkProgress (λ _, false) 0 0 0.

Definition restart (n : nat) (p : C_Progress) : C_Progress :=
  mkProgress (hasBeenCanceled_at p) (polls p) 0 n.

Definition hasBeenCanceled (p : C_Progress) : bool :=
  hasBeenCanceled_at p (polls p).

Definition polled (p : C_Progress) : C_Progress :=
  mkProgress (hasBeenCanceled_at p) (S (polls p)) (count p) (expected_count p).

Definition advance (k : nat) (p : C_Progress) : C_Progress :=
  mkProgress (hasBeenCanceled_at p) (polls p) (count p + k) (expected_count p).

(** Modelled from the spec: [PairWiseMatchesContainer::insert] is in
    indMatch.hpp; an entry is inserted once and never overwritten. *)
Definition container_insert (k : nat * nat) (v : IndMatches)
    (m : gmap (nat * nat) IndMatches) : gmap (nat * nat) IndMatches :=
  match m !! k with
  | Some _ => m
  | None => <[k := v]> m
  end.

(** ** Iteration over [std::set] and [std::map] *)

Definition pair_le (p q : nat * nat) : Prop :=
  p.1 < q.1 ∨ (p.1 = q.1 ∧ p.2 ≤ q.2).

Global Instance pair_le_dec : RelDecision pair_le.
Proof. intros p q. unfold pair_le. apply _. Defined.

(** [for (const auto & pair_idx : pairs)] over a [Pair_Set]. *)
Definition Pair_Set_iter (pairs : gset (nat * nat)) : list (nat * nat) :=
  merge_sort pair_le (elements pairs).

(** Iteration over a [std::set<IndexT>]. *)
Definition set_iter (s : gset nat) : list nat :=
  merge_sort (≤) (elements s).

(** Iteration over a [std::map<IndexT, std::vector<IndexT>>]. *)
Definition map_iter (m : gmap nat (list nat)) : list (nat * list nat) :=
  (λ k, (k, default [] (m !! k))) <$> set_iter (dom m).

(** ** Scheduling of the two parallel loops

    Each [#pragma omp parallel for] runs the iterations of its loop in some
    order; the body touches the shared containers inside a critical section
    only.  A schedule reorders the iteration indices of a loop.  Without
    OpenMP the loops run in index order. *)
Record Schedule := mkSchedule {
  sched_index : list nat → list nat;
  sched_match : nat → list nat → list nat
}.

Definition Schedule_valid (s : Schedule) : Prop :=
  (∀ l, sched_index s l ≡ₚ l) ∧ (∀ I l, sched_match s I l ≡ₚ l).

Definition sequential : Schedule := mkSchedule (λ l, l) (λ _ l, l).

(** ** State of the matching loops *)

(** The output container, the progress sink, and the record of the calls of
    [map_PutativesMatches.insert] (most recent first). *)
Record MatchState := mkState {
  map_PutativesMatches : gmap (nat * nat) IndMatches;
  my_progress_bar : C_Progress;
  insert_calls : list (nat * nat)
}.

Definition with_bar (f : C_Progress → C_Progress) (st : MatchState) : MatchState :=
  mkState (map_PutativesMatches st) (f (my_progress_bar st)) (insert_calls st).

Definition do_insert (k : nat * nat) (v : IndMatches) (st : MatchState) : MatchState :=
  mkState (container_insert k v (map_PutativesMatches st))
          (my_progress_bar st) (k :: insert_calls st).

(** ** [impl::Match] *)

Section impl.
Context {F : Type} `{!FloatOps F} `{!CascadeHasherOps F} `{!MatchFilters F}.
Context (sT : ScalarT).
Context (regions_provider : Regions_Provider F).
Context (sched : Schedule).
Context (fDistRatio : F).

(** [Eigen::Map<BaseMat> mat((ScalarT* )tab, regions->RegionCount(), dimension)] *)
Definition mat_of (regions : Regions F) (dimension : nat) : BaseMat :=
  mkBaseMat (DescriptorRawData regions) (RegionCount regions) dimension.

(** Lines 52-61: the used views and the pairs grouped by their first index. *)
Definition group_step (acc : gmap nat (list nat) * gset nat) (pair_idx : nat * nat)
    : gmap nat (list nat) * gset nat :=
  (<[pair_idx.1 := default [] (acc.1 !! pair_idx.1) ++ [pair_idx.2]]> (acc.1),
   {[pair_idx.2]} ∪ ({[pair_idx.1]} ∪ acc.2)).

Definition group_pairs (pairs : gset (nat * nat)) : gmap nat (list nat) * gset nat :=
  foldl group_step (∅, ∅) (Pair_Set_iter pairs).

Definition map_Pairs (pairs : gset (nat * nat)) : gmap nat (list nat) :=
  (group_pairs pairs).1.

Definition used_index (pairs : gset (nat * nat)) : gset nat :=
  (group_pairs pairs).2.

(** Lines 66-73: the hasher is initialised with the descriptor length of
    the first used view. *)
Definition init_hasher (used : list nat) : CascadeHasher :=
  match used with
  | [] => CascadeHasher_new
  | first :: _ =>
      let I := first in
      Init CascadeHasher_new (DescriptorLength (get regions_provider I))
  end.

(** Lines 81-100: one iteration of the loop that fills [matForZeroMean]. *)
Definition zero_mean_step (used : list nat) (matForZeroMean : MatrixXf F) (i : nat)
    : MatrixXf F :=
  let I := used !!! i in
  let regionsI := get regions_provider I in
  let dimension := DescriptorLength regionsI in
  let matForZeroMean :=
    if decide (i = 0) then replicate (length used) (replicate dimension f0)
    else matForZeroMean in
  if decide (0 < RegionCount regionsI) then
    <[i := GetZeroMeanDescriptor sT (mat_of regionsI dimension)]> matForZeroMean
  else matForZeroMean.

Definition matForZeroMean_of (used : list nat) : MatrixXf F :=
  foldl (zero_mean_step used) [] (seq 0 (length used)).

(** Line 101. *)
Definition zero_mean_descriptor_of (used : list nat) : VectorXf F :=
  GetZeroMeanDescriptor_f (matForZeroMean_of used).

(** Lines 108-126: the hashed description of every used view. *)
Definition index_step (cascade_hasher : CascadeHasher) (zero_mean_descriptor : VectorXf F)
    (used : list nat) (hashed_base_ : gmap nat HashedDescriptions) (i : nat)
    : gmap nat HashedDescriptions :=
  let I := used !!! i in
  let regionsI := get regions_provider I in
  let dimension := DescriptorLength regionsI in
  <[I := CreateHashedDescriptions cascade_hasher sT (mat_of regionsI dimension)
           zero_mean_descriptor]> hashed_base_.

Definition hashed_base_of (cascade_hasher : CascadeHasher)
    (zero_mean_descriptor : VectorXf F) (used : list nat)
    : gmap nat HashedDescriptions :=
  foldl (index_step cascade_hasher zero_mean_descriptor used) ∅
        (sched_index sched (seq 0 (length used))).

(** [hashed_base_[I]] in the matching loop. *)
Definition hashed_at (hashed_base_ : gmap nat HashedDescriptions) (I : nat)
    : HashedDescriptions :=
  default HashedDescriptions_new (hashed_base_ !! I).

Section pair.
Context (cascade_hasher : CascadeHasher).
Context (hashed_base_ : gmap nat HashedDescriptions).

(** Lines 165-178: the views of [J] are the query, those of [I] the base. *)
Definition pair_candidates (I J : nat) : IndMatches * list F :=
  let regionsI := get regions_provider I in
  let regionsJ := get regions_provider J in
  let dimension := DescriptorLength regionsI in
  Match_HashedDescriptions cascade_hasher sT
    (hashed_at hashed_base_ J) (mat_of regionsJ dimension)
    (hashed_at hashed_base_ I) (mat_of regionsI dimension).

(** Lines 180-190. *)
Definition nn_ratio_indexes (I J : nat) : list nat :=
  NNdistanceRatio (pair_candidates I J).2 2 (Square fDistRatio).

(** Lines 192-198.  Reading [pvec_indices] past its end is undefined in the
    source; the engine returns as many records as distances, so the read is
    in range for every accepted group (lemma [nn_ratio_indexes_lt]). *)
Definition emitted (pvec_indices : IndMatches) (index : nat) : IndMatch :=
  mkIndMatch (j_ (pvec_indices !!! (index * 2)))
             (i_ (pvec_indices !!! (index * 2))).

Definition ratio_matches (I J : nat) : IndMatches :=
  emitted (pair_candidates I J).1 <$> nn_ratio_indexes I J.

(** Lines 200-207. *)
Definition pair_matches (I J : nat) : IndMatches :=
  let pointFeaturesI := GetRegionsPositions (get regions_provider I) in
  let pointFeaturesJ := GetRegionsPositions (get regions_provider J) in
  IndMatchDecorator_getDeduplicated pointFeaturesI pointFeaturesJ
    (IndMatch_getDeduplicated (ratio_matches I J)).

(** Lines 153-222: the body of the inner loop for the second view [J]. *)
Definition match_pair (I : nat) (st : MatchState) (J : nat) : MatchState :=
  if hasBeenCanceled (my_progress_bar st) then with_bar polled st
  else
    let st := with_bar polled st in
    if decide (Type_id (get regions_provider I) ≠ Type_id (get regions_provider J))
    then with_bar (advance 1) st
    else
      let matches := pair_matches I J in
      let st := if decide (matches = []) then st else do_insert (I, J) matches st in
      with_bar (advance 1) st.

(** Lines 151-223: the inner loop, in the order of the schedule. *)
Definition match_group (I : nat) (indexToCompare : list nat) (order : list nat)
    (st : MatchState) : MatchState :=
  foldl (match_pair I) st ((λ j, indexToCompare !!! j) <$> order).

(** Lines 129-224: the loop over the groups; [break] leaves it. *)
Fixpoint match_groups (groups : list (nat * list nat)) (st : MatchState)
    : MatchState :=
  match groups with
  | [] => st
  | pairs :: rest =>
      let I := pairs.1 in
      let indexToCompare := pairs.2 in
      if hasBeenCanceled (my_progress_bar st) then with_bar polled st
      else
        let st := with_bar polled st in
        if decide (RegionCount (get regions_provider I) = 0) then
          match_groups rest (with_bar (advance (length indexToCompare)) st)
        else
          match_groups rest
            (match_group I indexToCompare
               (sched_match sched I (seq 0 (length indexToCompare))) st)
  end.
End pair.

(** [impl::Match<ScalarT>]. *)
Definition impl_Match (pairs : gset (nat * nat))
    (map_PutativesMatches0 : gmap (nat * nat) IndMatches)
    (my_progress_bar0 : option C_Progress) : MatchState :=
  let bar := restart (size pairs) (default C_Progress_dummy my_progress_bar0) in
  let used := set_iter (used_index pairs) in
  let cascade_hasher := init_hasher used in
  let zero_mean_descriptor := zero_mean_descriptor_of used in
  let hashed_base_ := hashed_base_of cascade_hasher zero_mean_descriptor used in
  match_groups cascade_hasher hashed_base_ (map_iter (map_Pairs pairs))
    (mkState map_PutativesMatches0 bar []).
End impl.

(** ** [Cascade_Hashing_Matcher_Regions::Match] *)

Record Cascade_Hashing_Matcher_Regions (F : Type) := mkMatcher { f_dist_ratio_ : F }.
Arguments mkMatcher {F}.
Arguments f_dist_ratio_ {F}.

(** What the caller sees afterwards: the container, the progress sink that
    was used (if any), the calls of [insert], and the lines sent to
    [std::cerr].  The line that a build with OpenMP sends to [std::cout] is
    left out. *)
Record Outcome := mkOutcome {
  out_matches : gmap (nat * nat) IndMatches;
  out_progress : option C_Progress;
  out_insert_calls : list (nat * nat);
  out_cerr : list string
}.

Definition ran (st : MatchState) : Outcome :=
  mkOutcome (map_PutativesMatches st) (Some (my_progress_bar st)) (insert_calls st) [].

Section Matcher.
Context {F : Type} `{!FloatOps F} `{!CascadeHasherOps F} `{!MatchFilters F}.
Context `{!TypeInfo}.

Definition Cascade_Hashing_Matcher_Regions_Match
    (this : Cascade_Hashing_Matcher_Regions F) (sched : Schedule)
    (regions_provider : option (Regions_Provider F))
    (pairs : gset (nat * nat))
    (map_PutativesMatches0 : gmap (nat * nat) IndMatches)
    (my_progress_bar0 : option C_Progress) : Outcome :=
  match regions_provider with
  | None => mkOutcome map_PutativesMatches0 my_progress_bar0 [] []
  | Some provider =>
      if IsBinary provider then mkOutcome map_PutativesMatches0 my_progress_bar0 [] []
      else if decide (provider_Type_id provider = typeid_name ScalarT_uchar) then
        ran (impl_Match ScalarT_uchar provider sched (f_dist_ratio_ this)
               pairs map_PutativesMatches0 my_progress_bar0)
      else if decide (provider_Type_id provider = typeid_name ScalarT_float) then
        ran (impl_Match ScalarT_float provider sched (f_dist_ratio_ this)
               pairs map_PutativesMatches0 my_progress_bar0)
      else
        mkOutcome map_PutativesMatches0 my_progress_bar0 []
          ["Matcher not implemented for this region type"]
  end.
End Matcher.

(** ** Auxiliary notions used in the statements *)

(** The pairs the matching loops visit. *)
Definition tasks (groups : list (nat * list nat)) : list (nat * nat) :=
  g ← groups; (λ J, (g.1, J)) <$> g.2.

Section entries.
Context {F : Type} `{!FloatOps F} `{!CascadeHasherOps F} `{!MatchFilters F}.
Context (sT : ScalarT).
Context (regions_provider : Regions_Provider F).
Context (fDistRatio : F).
Context (cascade_hasher : CascadeHasher).
Context (hashed_base_ : gmap nat HashedDescriptions).

(** What the body of the inner loop offers to the container for a pair. *)
Definition pair_entry (k : nat * nat) : option IndMatches :=
  if decide (Type_id (get regions_provider k.1) ≠ Type_id (get regions_provider k.2))
  then None
  else
    let matches :=
      pair_matches sT regions_provider fDistRatio cascade_hasher hashed_base_ k.1 k.2 in
    if decide (matches = []) then None else Some matches.

(** The same for a pair of a group: nothing when the first view is empty. *)
Definition group_entry (k : nat * nat) : option IndMatches :=
  if decide (RegionCount (get regions_provider k.1) = 0) then None else pair_entry k.

(** The offer of the body, applied to the state. *)
Definition offer (k : nat * nat) (st : MatchState) : MatchState :=
  match pair_entry k with
  | Some matches => do_insert k matches st
  | None => st
  end.
End entries.

Section summaries.
Context {F : Type} `{!FloatOps F} `{!CascadeHasherOps F}.
Context (sT : ScalarT).
Context (regions_provider : Regions_Provider F).

(** The descriptor length of the first used view, the number of columns of
    [matForZeroMean]. *)
Definition dimension0 (used : list nat) : nat :=
  DescriptorLength (get regions_provider (used !!! 0)).

(** The row of a view in [matForZeroMean]: its zero-mean descriptor, or
    zeros when the view has no descriptor. *)
Definition summary_row (dimension : nat) (I : nat) : VectorXf F :=
  let regionsI := get regions_provider I in
  if decide (0 < RegionCount regionsI) then
    GetZeroMeanDescriptor sT (mat_of regionsI (DescriptorLength regionsI))
  else replicate dimension f0.

(** The hashed description built for a view. *)
Definition hashed_of (cascade_hasher : CascadeHasher)
    (zero_mean_descriptor : VectorXf F) (I : nat) : HashedDescriptions :=
  let regionsI := get regions_provider I in
  CreateHashedDescriptions cascade_hasher sT
    (mat_of regionsI (DescriptorLength regionsI)) zero_mean_descriptor.
End summaries.

Section run.
Context {F : Type} `{!FloatOps F} `{!CascadeHasherOps F}.
Context (sT : ScalarT).
Context (regions_provider : Regions_Provider F).
Context (sched : Schedule).

(** The hasher, the zero-mean descriptor and the hashed descriptions that
    [impl::Match] builds for a pair set. *)
Definition run_hasher (pairs : gset (nat * nat)) : CascadeHasher :=
  init_hasher regions_provider (set_iter (used_index pairs)).

Definition run_zero_mean (pairs : gset (nat * nat)) : VectorXf F :=
  zero_mean_descriptor_of sT regions_provider (set_iter (used_index pairs)).

Definition run_hashed_base (pairs : gset (nat * nat)) : gmap nat HashedDescriptions :=
  hashed_base_of sT regions_provider sched (run_hasher pairs) (run_zero_mean pairs)
    (set_iter (used_index pairs)).
End run.

(** ** Contracts of the collaborators *)

(** The comparison [<] of floats is irreflexive. *)
Class FloatLaws (F : Type) `{!FloatOps F} : Prop := {
  fltb_irrefl : ∀ x : F, fltb x x = false
}.

(** The answer of a 2-nearest-neighbour query: as many distances as
    candidate records; every record holds a row of the query in [i_] and a row
    of the base in [j_]; the groups of two records belong to different rows of
    the query. *)
Record knn_contract {F : Type} (query base : BaseMat) (res : IndMatches * list F)
    : Prop := mkKnnContract {
  knn_lengths : length res.1 = length res.2;
  knn_in_range : ∀ c, c ∈ res.1 → i_ c < mat_rows query ∧ j_ c < mat_rows base;
  knn_one_group : ∀ g g',
    g * 2 < length res.1 → g' * 2 < length res.1 →
    i_ (res.1 !!! (g * 2)) = i_ (res.1 !!! (g' * 2)) → g = g'
}.

Class CascadeHasherLaws (F : Type) `{!CascadeHasherOps F} : Prop := {
  Match_HashedDescriptions_contract :
    ∀ cascade_hasher sT hashed_query query hashed_base base,
      knn_contract query base
        (Match_HashedDescriptions cascade_hasher sT hashed_query query hashed_base base)
}.

(** Both de-duplications return some of the matches they are given, none
    more often than given. *)
Class MatchFiltersLaws (F : Type) `{!MatchFilters F} : Prop := {
  IndMatch_getDeduplicated_sub :
    ∀ matches, IndMatch_getDeduplicated matches ⊆+ matches;
  IndMatchDecorator_getDeduplicated_sub :
    ∀ (left right : list (F * F)) matches,
      IndMatchDecorator_getDeduplicated left right matches ⊆+ matches
}.

(** The configurations the matcher declines: no provider, a provider of
    binary descriptors, or a scalar type that is neither [unsigned char] nor
    [float]. *)
Definition unsupported {F : Type} `{!TypeInfo}
    (regions_provider : option (Regions_Provider F)) : Prop :=
  match regions_provider with
  | None => True
  | Some provider =>
      IsBinary provider = true ∨
      (provider_Type_id provider ≠ typeid_name ScalarT_uchar ∧
       provider_Type_id provider ≠ typeid_name ScalarT_float)
  end.

(** What is sent to [std::cerr] in these configurations. *)
Definition reported {F : Type} (regions_provider : option (Regions_Provider F))
    : list string :=
  match regions_provider with
  | None => []
  | Some provider =>
      if IsBinary provider then []
      else ["Matcher not implemented for this region type"]
  end.

(** Two states with the same container, the same calls of [insert] and the
    same progress. *)
Definition same_results (st' st : MatchState) : Prop :=
  map_PutativesMatches st' = map_PutativesMatches st ∧
  insert_calls st' = insert_calls st ∧
  count (my_progress_bar st') = count (my_progress_bar st).

(** No query before the next one of [st] has reported a cancellation. *)
Definition quiet_so_far (st : MatchState) : Prop :=
  ∀ t, t < polls (my_progress_bar st) →
       hasBeenCanceled_at (my_progress_bar st) t = false.

(** The sink never reports cancellation. *)
Definition never_canceled (p : C_Progress) : Prop :=
  ∀ t, hasBeenCanceled_at p t = false.

(** A cancellation request is not withdrawn. *)
Definition sticky (p : C_Progress) : Prop :=
  ∀ t t', t ≤ t' → hasBeenCanceled_at p t = true → hasBeenCanceled_at p t' = true.

(** The second views of a group in the order the schedule visits them. *)
Definition visited (sched : Schedule) (I : nat) (indexToCompare : list nat) : list nat :=
  (λ j, indexToCompare !!! j) <$> sched_match sched I (seq 0 (length indexToCompare)).

(** [st'] is reached from [st] by loop iterations for the pairs [T], each of
    which offers [entry] to the container. *)
Record progressed (entry : nat * nat → option IndMatches) (T : list (nat * nat))
    (st st' : MatchState) : Prop := mkProgressed {
  prog_oracle :
    hasBeenCanceled_at (my_progress_bar st') = hasBeenCanceled_at (my_progress_bar st);
  prog_expected :
    expected_count (my_progress_bar st') = expected_count (my_progress_bar st);
  prog_polls : polls (my_progress_bar st) ≤ polls (my_progress_bar st');
  prog_count :
    count (my_progress_bar st) ≤ count (my_progress_bar st') ≤
    count (my_progress_bar st) + length T;
  prog_keep : ∀ k v,
    map_PutativesMatches st !! k = Some v → map_PutativesMatches st' !! k = Some v;
  prog_new : ∀ k v,
    map_PutativesMatches st' !! k = Some v →
    map_PutativesMatches st !! k = Some v ∨
    (map_PutativesMatches st !! k = None ∧ k ∈ T ∧ entry k = Some v);
  prog_calls : ∃ l,
    insert_calls st' = l ++ insert_calls st ∧ l ⊆+ T ∧ ∀ k, k ∈ l → is_Some (entry k)
}.

(** The container after every pair of [T] made its offer to [m]. *)
Definition merged (entry : nat * nat → option IndMatches) (T : list (nat * nat))
    (m : gmap (nat * nat) IndMatches) (k : nat * nat) : option IndMatches :=
  match m !! k with
  | Some v => Some v
  | None => if decide (k ∈ T) then entry k else None
  end.

(** The constructor [Cascade_Hashing_Matcher_Regions(float distRatio)]
    (lines 26-32). *)
Definition Cascade_Hashing_Matcher_Regions_new {F : Type} (distRatio : F)
    : Cascade_Hashing_Matcher_Regions F :=
  mkMatcher distRatio.

(** The number of cancellation queries of the matching loops when no
    cancellation is reported: one at the head of every group (line 131) and
    one per second view of a group whose first view has descriptors
    (line 153). *)
Definition checkpoints {F : Type} (regions_provider : Regions_Provider F)
    (groups : list (nat * list nat)) : nat :=
  sum_list ((λ g : nat * list nat,
               if decide (RegionCount (get regions_provider g.1) = 0) then 1
               else S (length g.2)) <$> groups).

(** ** A reference instance

    Exact rational arithmetic for the floats and an engine that searches the
    base exhaustively: the candidates of a query row are the two rows of the
    base at the least squared Euclidean distance.  It reads one coefficient
    per byte of the raw buffer.  It serves to run the pipeline on concrete
    inputs. *)

Module Reference.

Definition Qltb (a b : Q) : bool :=
  (Qnum a * Zpos (Qden b) <? Qnum b * Zpos (Qden a))%Z.

Definition Qeqb (a b : Q) : bool :=
  (Qnum a * Zpos (Qden b) =? Qnum b * Zpos (Qden a))%Z.

Global Instance Q_FloatOps : FloatOps Q :=
  {| f0 := Qmake 0 1; fmul := Qmult; fltb := Qltb |}.

Definition coeff (mat : BaseMat) (r c : nat) : Z :=
  Z.of_N (Byte.to_N (nth (r * mat_cols mat + c) (mat_data mat) Byte.x00)).

Definition row (mat : BaseMat) (r : nat) : list Z :=
  (λ c, coeff mat r c) <$> seq 0 (mat_cols mat).

Definition distance (a b : list Z) : Z :=
  foldr Z.add 0%Z (zip_with (λ x y, (x - y) * (x - y))%Z a b).

(** Candidates are ordered by distance, then by row. *)
Definition closer (c1 c2 : Z * nat) : Prop :=
  (c1.1 < c2.1)%Z ∨ (c1.1 = c2.1 ∧ c1.2 ≤ c2.2).

Global Instance closer_dec : RelDecision closer.
Proof. intros c1 c2. unfold closer. apply _. Defined.

Definition neighbours (query base : BaseMat) (i : nat) : list (Z * nat) :=
  merge_sort closer
    ((λ j, (distance (row query i) (row base j), j)) <$> seq 0 (mat_rows base)).

Definition two_nearest (query base : BaseMat) (i : nat) : list (IndMatch * Q) :=
  (λ c : Z * nat, (mkIndMatch i c.2, inject_Z c.1)) <$>
  take 2 (neighbours query base i).

Definition exhaustive_search (query base : BaseMat) : IndMatches * list Q :=
  if decide (2 ≤ mat_rows base) then
    let found := seq 0 (mat_rows query) ≫= two_nearest query base in
    (found.*1, found.*2)
  else ([], []).

(** The mean of every column. *)
Definition column_means (rows : list (list Q)) : list Q :=
  match rows with
  | [] => []
  | first :: _ =>
      (λ c, Qdiv (foldr Qplus (Qmake 0 1) ((λ r, nth c r (Qmake 0 1)) <$> rows))
                 (inject_Z (Z.of_nat (length rows)))) <$> seq 0 (length first)
  end.

Global Instance exhaustive_CascadeHasherOps : CascadeHasherOps Q :=
  {| CascadeHasher := nat;
     HashedDescriptions := nat;
     CascadeHasher_new := 0;
     HashedDescriptions_new := 0;
     Init := λ _ dimension, dimension;
     GetZeroMeanDescriptor := λ _ mat,
       column_means ((λ r, inject_Z <$> row mat r) <$> seq 0 (mat_rows mat));
     GetZeroMeanDescriptor_f := column_means;
     CreateHashedDescriptions := λ _ _ mat _, mat_rows mat;
     Match_HashedDescriptions := λ _ _ _ query _ base, exhaustive_search query base |}.

Definition hasher0 : CascadeHasher := 0.

(** Keeps the first element of every class of [key]. *)
Fixpoint dedup_by {A K : Type} (eqb : K → K → bool) (key : A → K)
    (seen : list K) (l : list A) : list A :=
  match l with
  | [] => []
  | x :: l =>
      if existsb (eqb (key x)) seen then dedup_by eqb key seen l
      else x :: dedup_by eqb key (key x :: seen) l
  end.

Definition point_eqb (p q : Q * Q) : bool := Qeqb p.1 q.1 && Qeqb p.2 q.2.

Definition coords (left right : list (Q * Q)) (m : IndMatch) : (Q * Q) * (Q * Q) :=
  (left !!! i_ m, right !!! j_ m).

Definition coords_eqb (a b : (Q * Q) * (Q * Q)) : bool :=
  point_eqb a.1 b.1 && point_eqb a.2 b.2.

Global Instance first_MatchFilters : MatchFilters Q :=
  {| IndMatch_getDeduplicated := remove_dups;
     IndMatchDecorator_getDeduplicated := λ left right,
       dedup_by coords_eqb (coords left right) [] |}.

Global Instance gcc_TypeInfo : TypeInfo :=
  {| typeid_name := λ s, match s with ScalarT_uchar => "h" | ScalarT_float => "f" end |}.

Definition points3 : list (Q * Q) :=
  [(Qmake 1 1, Qmake 1 1); (Qmake 2 1, Qmake 5 1); (Qmake 7 2, Qmake 3 1)].

(** Three descriptors of two bytes: (0,0), (3,0), (1,4). *)
Definition descriptors_a : list Byte.byte :=
  [Byte.x00; Byte.x00; Byte.x03; Byte.x00; Byte.x01; Byte.x04].

(** Three descriptors of two bytes: (1,0), (1,2), (3,0). *)
Definition descriptors_b : list Byte.byte :=
  [Byte.x01; Byte.x00; Byte.x01; Byte.x02; Byte.x03; Byte.x00].

(** View 1 holds [descriptors_b], view 2 has no descriptor, view 3 reports
    another scalar type, every other view holds [descriptors_a]. *)
Definition regions_of (I : nat) : Regions Q :=
  match I with
  | 1 => mkRegions "h" 3 2 descriptors_b points3
  | 2 => mkRegions "h" 0 2 [] []
  | 3 => mkRegions "f" 3 2 descriptors_b points3
  | _ => mkRegions "h" 3 2 descriptors_a points3
  end.

Definition provider : Regions_Provider Q := mkProvider false "h" regions_of.

Definition matcher : Cascade_Hashing_Matcher_Regions Q := mkMatcher (Qmake 4 5).

Definition reversed : Schedule := mkSchedule reverse (λ _, reverse).

(** A progress sink that reports cancellation from its [n]-th query on. *)
Definition cancel_from (n : nat) : C_Progress :=
  mkProgress (λ t, bool_decide (n ≤ t)) 0 0 0.

(** The matching loops of the reference instance, and a start state whose
    sink reports cancellation from its third query on. *)
Definition run_groups : list (nat * list nat) → MatchState → MatchState :=
  match_groups ScalarT_uchar provider sequential (Qmake 4 5) hasher0 ∅.

Definition start_canceled_at_2 : MatchState :=
  mkState ∅ (restart 2 (cancel_from 2)) [].

(** The same with a sink that reports cancellation from its second query on. *)
Definition start_canceled_at_1 : MatchState :=
  mkState ∅ (restart 2 (cancel_from 1)) [].

(** A progress sink that reports cancellation at its [n]-th query only. *)
Definition cancel_once (n : nat) : C_Progress :=
  mkProgress (λ t, bool_decide (t = n)) 0 0 0.

(** A start state for three pairs whose sink reports cancellation at its
    second query only. *)
Definition start_canceled_once_at_1 : MatchState :=
  mkState ∅ (restart 3 (cancel_once 1)) [].

End Reference.

(** * Properties *)

(** ** Iteration order *)

Global Instance pair_le_total : Total pair_le.
Proof. intros [a b] [c d]. unfold pair_le; simpl. lia. Qed.

Global Instance pair_le_trans : Transitive pair_le.
Proof. intros [a b] [c d] [e f]. unfold pair_le; simpl. lia. Qed.

Global Instance pair_le_antisymm : AntiSymm (=) pair_le.
Proof.
  intros [a b] [c d]. unfold pair_le; simpl. intros H1 H2.
  f_equal; lia.
Qed.

Lemma elem_of_Pair_Set_iter (pairs : gset (nat * nat)) p :
  p ∈ Pair_Set_iter pairs ↔ p ∈ pairs.
Proof.
  unfold Pair_Set_iter. rewrite merge_sort_Permutation. apply elem_of_elements.
Qed.

Lemma NoDup_Pair_Set_iter (pairs : gset (nat * nat)) : NoDup (Pair_Set_iter pairs).
Proof.
  unfold Pair_Set_iter. rewrite merge_sort_Permutation. apply NoDup_elements.
Qed.

Lemma length_Pair_Set_iter (pairs : gset (nat * nat)) :
  length (Pair_Set_iter pairs) = size pairs.
Proof. unfold Pair_Set_iter. by rewrite merge_sort_Permutation. Qed.

Lemma elem_of_set_iter (s : gset nat) x : x ∈ set_iter s ↔ x ∈ s.
Proof. unfold set_iter. rewrite merge_sort_Permutation. apply elem_of_elements. Qed.

Lemma NoDup_set_iter (s : gset nat) : NoDup (set_iter s).
Proof. unfold set_iter. rewrite merge_sort_Permutation. apply NoDup_elements. Qed.

Lemma Sorted_set_iter (s : gset nat) : StronglySorted (≤) (set_iter s).
Proof. apply StronglySorted_merge_sort; apply _. Qed.

(** A sorted list without repetition is strictly increasing. *)
Lemma StronglySorted_lt_NoDup (l : list nat) :
  StronglySorted (≤) l → NoDup l → StronglySorted (<) l.
Proof.
  induction 1 as [|x l Hs IH Hall]; intros Hnd; [constructor|].
  apply NoDup_cons in Hnd as [Hx Hnd].
  constructor; [by apply IH|].
  rewrite Forall_forall in Hall |- *. intros y Hy.
  specialize (Hall y Hy). assert (x ≠ y) by (by intros ->). lia.
Qed.

Lemma set_iter_increasing (s : gset nat) : StronglySorted (<) (set_iter s).
Proof. apply StronglySorted_lt_NoDup; [apply Sorted_set_iter|apply NoDup_set_iter]. Qed.

(** The iteration order of a set depends on its elements only. *)
Lemma set_iter_unique (s : gset nat) (l : list nat) :
  StronglySorted (<) l → (∀ x, x ∈ l ↔ x ∈ s) → l = set_iter s.
Proof.
  intros Hl Hel.
  assert (AntiSymm (=) lt) by (intros x y ??; lia).
  apply (StronglySorted_unique (<)); [done | apply set_iter_increasing |].
  apply NoDup_Permutation.
  - clear Hel. induction Hl as [|x l Hs IH Hall]; constructor; [|done].
    rewrite Forall_forall in Hall. intros Hx. specialize (Hall x Hx). lia.
  - apply NoDup_set_iter.
  - intros x. by rewrite Hel, elem_of_set_iter.
Qed.

Lemma elem_of_map_iter (m : gmap nat (list nat)) I js :
  (I, js) ∈ map_iter m ↔ m !! I = Some js.
Proof.
  unfold map_iter. rewrite list_elem_of_fmap. split.
  - intros (k & [= -> ->] & Hk).
    apply elem_of_set_iter, elem_of_dom in Hk as [v Hv]. by rewrite Hv.
  - intros Hm. exists I. rewrite Hm. split; [done|].
    apply elem_of_set_iter, elem_of_dom. eauto.
Qed.

Lemma NoDup_map_iter_keys (m : gmap nat (list nat)) : NoDup ((map_iter m).*1).
Proof.
  unfold map_iter. rewrite <- list_fmap_compose.
  rewrite (list_fmap_ext _ id); [|done].
  rewrite list_fmap_id. apply NoDup_set_iter.
Qed.

(** ** Grouping of the pairs (lines 52-61) *)

Lemma group_fold_used (l : list (nat * nat)) acc x :
  x ∈ (foldl group_step acc l).2 ↔
  x ∈ acc.2 ∨ ∃ p, p ∈ l ∧ (x = p.1 ∨ x = p.2).
Proof.
  revert acc. induction l as [|p l IH]; intros acc; simpl.
  - split; [auto|]. intros [?|(p & Hp & _)]; [done|]. by apply elem_of_nil in Hp.
  - rewrite IH. simpl. rewrite !elem_of_union, !elem_of_singleton. split.
    + intros [[->|[->|?]]|(q & Hq & Hx)]; [right|right|by left|right].
      * exists p. split; [apply list_elem_of_here|by right].
      * exists p. split; [apply list_elem_of_here|by left].
      * exists q. split; [by apply list_elem_of_further|done].
    + intros [?|(q & [->|Hq]%elem_of_cons & Hx)]; [by left; right; right| |].
      * left. destruct Hx as [->| ->]; [right; by left|by left].
      * right. by exists q.
Qed.

Lemma group_fold_lookup (l : list (nat * nat)) acc I :
  default [] ((foldl group_step acc l).1 !! I) =
  default [] (acc.1 !! I) ++ (filter (λ p, p.1 = I) l).*2.
Proof.
  revert acc. induction l as [|p l IH]; intros acc; simpl.
  - by rewrite app_nil_r.
  - rewrite IH. simpl. rewrite filter_cons.
    destruct (decide (p.1 = I)) as [->|Hne].
    + rewrite lookup_insert_eq. simpl. by rewrite <- app_assoc.
    + by rewrite lookup_insert_ne.
Qed.

Lemma group_fold_dom (l : list (nat * nat)) acc I :
  I ∈ dom (foldl group_step acc l).1 ↔ I ∈ dom acc.1 ∨ ∃ p, p ∈ l ∧ p.1 = I.
Proof.
  revert acc. induction l as [|p l IH]; intros acc; simpl.
  - split; [auto|]. intros [?|(p & Hp & _)]; [done|]. by apply elem_of_nil in Hp.
  - rewrite IH. simpl. rewrite dom_insert, elem_of_union, elem_of_singleton. split.
    + intros [[->|?]|(q & Hq & Hx)]; [right|by left|right].
      * exists p. split; [apply list_elem_of_here|done].
      * exists q. split; [by apply list_elem_of_further|done].
    + intros [?|(q & [->|Hq]%elem_of_cons & Hx)]; [by left; right|by left; left|].
      right. by exists q.
Qed.

Lemma elem_of_used_index (pairs : gset (nat * nat)) x :
  x ∈ used_index pairs ↔ ∃ p, p ∈ pairs ∧ (x = p.1 ∨ x = p.2).
Proof.
  unfold used_index, group_pairs. rewrite group_fold_used. simpl. split.
  - intros [Hx|(p & Hp & Hx)]; [by apply elem_of_empty in Hx|].
    exists p. by rewrite <- elem_of_Pair_Set_iter.
  - intros (p & Hp & Hx). right. exists p. by rewrite elem_of_Pair_Set_iter.
Qed.

Lemma map_Pairs_lookup (pairs : gset (nat * nat)) I :
  default [] (map_Pairs pairs !! I) = (filter (λ p, p.1 = I) (Pair_Set_iter pairs)).*2.
Proof.
  unfold map_Pairs, group_pairs. rewrite group_fold_lookup. simpl.
  by rewrite lookup_empty.
Qed.

Lemma elem_of_map_Pairs (pairs : gset (nat * nat)) I J :
  J ∈ default [] (map_Pairs pairs !! I) ↔ (I, J) ∈ pairs.
Proof.
  rewrite map_Pairs_lookup, list_elem_of_fmap.
  setoid_rewrite list_elem_of_filter. setoid_rewrite elem_of_Pair_Set_iter.
  split.
  - intros ([a b] & -> & Ha & Hin). simpl in *. by subst.
  - intros Hin. exists (I, J). auto.
Qed.

Lemma NoDup_map_Pairs (pairs : gset (nat * nat)) I :
  NoDup (default [] (map_Pairs pairs !! I)).
Proof.
  rewrite map_Pairs_lookup. apply NoDup_fmap_2_strong.
  - intros [a b] [c d]. rewrite !list_elem_of_filter. simpl.
    intros [-> _] [-> _] ->. done.
  - apply NoDup_filter, NoDup_Pair_Set_iter.
Qed.

Lemma elem_of_tasks groups I J :
  (I, J) ∈ tasks groups ↔ ∃ js, (I, js) ∈ groups ∧ J ∈ js.
Proof.
  unfold tasks. rewrite list_elem_of_bind. split.
  - intros ([I' js] & Hin & Hg). simpl in *.
    apply list_elem_of_fmap in Hin as (J' & [= -> ->] & HJ). eauto.
  - intros (js & Hg & HJ). exists (I, js). split; [|done].
    apply list_elem_of_fmap. eauto.
Qed.

Lemma elem_of_tasks_map_Pairs (pairs : gset (nat * nat)) p :
  p ∈ tasks (map_iter (map_Pairs pairs)) ↔ p ∈ pairs.
Proof.
  destruct p as [I J]. rewrite elem_of_tasks, <- elem_of_map_Pairs.
  setoid_rewrite elem_of_map_iter. split.
  - intros (js & -> & HJ). done.
  - destruct (map_Pairs pairs !! I) as [js|]; simpl; [eauto|].
    intros HJ. by apply elem_of_nil in HJ.
Qed.

Lemma NoDup_tasks_map_Pairs (pairs : gset (nat * nat)) :
  NoDup (tasks (map_iter (map_Pairs pairs))).
Proof.
  unfold tasks. apply NoDup_bind.
  - intros [I1 js1] [I2 js2] [a b] H1 H2. simpl.
    rewrite !list_elem_of_fmap. intros (? & [= -> ->] & ?) (? & [= -> _] & ?).
    apply elem_of_map_iter in H1, H2. congruence.
  - intros [I js] Hg. simpl. apply NoDup_fmap_2; [by intros ?? [=]|].
    apply elem_of_map_iter in Hg. pose proof (NoDup_map_Pairs pairs I) as Hnd.
    by rewrite Hg in Hnd.
  - apply (NoDup_fmap_1 fst), NoDup_map_iter_keys.
Qed.

Lemma tasks_map_Pairs_Permutation (pairs : gset (nat * nat)) :
  tasks (map_iter (map_Pairs pairs)) ≡ₚ Pair_Set_iter pairs.
Proof.
  apply NoDup_Permutation.
  - apply NoDup_tasks_map_Pairs.
  - apply NoDup_Pair_Set_iter.
  - intros p. by rewrite elem_of_tasks_map_Pairs, elem_of_Pair_Set_iter.
Qed.

Lemma length_tasks_map_Pairs (pairs : gset (nat * nat)) :
  length (tasks (map_iter (map_Pairs pairs))) = size pairs.
Proof. by rewrite tasks_map_Pairs_Permutation, length_Pair_Set_iter. Qed.

Lemma map_iter_used (pairs : gset (nat * nat)) I js :
  (I, js) ∈ map_iter (map_Pairs pairs) → I ∈ used_index pairs.
Proof.
  rewrite elem_of_map_iter. intros Hm.
  assert (I ∈ dom (map_Pairs pairs)) as Hd by (apply elem_of_dom; eauto).
  unfold map_Pairs, group_pairs in Hd. apply group_fold_dom in Hd. simpl in Hd.
  destruct Hd as [Hd|(p & Hp & <-)]; [set_solver|].
  apply elem_of_used_index. exists p. rewrite <- elem_of_Pair_Set_iter. auto.
Qed.

(** ** The loop bodies *)

Lemma lookup_total_seq_fmap {A} `{!Inhabited A} (l : list A) :
  (λ j, l !!! j) <$> seq 0 (length l) = l.
Proof.
  apply list_eq. intros i. rewrite list_lookup_fmap.
  destruct (decide (i < length l)) as [Hi|Hi].
  - rewrite lookup_seq_lt by done. simpl.
    by rewrite <- list_lookup_lookup_total_lt.
  - rewrite lookup_seq_ge by lia. simpl. symmetry. apply lookup_ge_None. lia.
Qed.

Lemma visited_Permutation (sched : Schedule) I (js : list nat) :
  Schedule_valid sched → visited sched I js ≡ₚ js.
Proof.
  intros [_ Hm]. unfold visited. rewrite (Hm I).
  by rewrite lookup_total_seq_fmap.
Qed.

Lemma visited_sequential I (js : list nat) : visited sequential I js = js.
Proof. unfold visited. simpl. apply lookup_total_seq_fmap. Qed.

Lemma container_insert_lookup (k : nat * nat) (v : IndMatches)
    (m : gmap (nat * nat) IndMatches) (k' : nat * nat) :
  container_insert k v m !! k' =
  match m !! k' with
  | Some w => Some w
  | None => if decide (k' = k) then Some v else None
  end.
Proof.
  unfold container_insert. destruct (m !! k) as [w|] eqn:Hk.
  - destruct (m !! k') as [w'|] eqn:Hk'; [done|].
    case_decide; [congruence|done].
  - destruct (decide (k' = k)) as [->|Hne].
    + by rewrite lookup_insert_eq, Hk.
    + rewrite lookup_insert_ne by done. by destruct (m !! k').
Qed.

Lemma tasks_cons I js gs :
  tasks ((I, js) :: gs) = ((λ J, (I, J)) <$> js) ++ tasks gs.
Proof. done. Qed.

Section loops.
Context {F : Type} `{!FloatOps F} `{!CascadeHasherOps F} `{!MatchFilters F}.
Context (sT : ScalarT).
Context (regions_provider : Regions_Provider F).
Context (sched : Schedule).
Context (fDistRatio : F).
Context (cascade_hasher : CascadeHasher).
Context (hashed_base_ : gmap nat HashedDescriptions).

Local Abbreviation match_pair' :=
  (match_pair sT regions_provider fDistRatio cascade_hasher hashed_base_).
Local Abbreviation match_group' :=
  (match_group sT regions_provider fDistRatio cascade_hasher hashed_base_).
Local Abbreviation match_groups' :=
  (match_groups sT regions_provider sched fDistRatio cascade_hasher hashed_base_).
Local Abbreviation pair_entry' :=
  (pair_entry sT regions_provider fDistRatio cascade_hasher hashed_base_).
Local Abbreviation group_entry' :=
  (group_entry sT regions_provider fDistRatio cascade_hasher hashed_base_).

Local Abbreviation offer' :=
  (offer sT regions_provider fDistRatio cascade_hasher hashed_base_).

Lemma match_pair_canceled I J st :
  hasBeenCanceled (my_progress_bar st) = true →
  match_pair' I st J = with_bar polled st.
Proof. intros Hc. unfold match_pair. by rewrite Hc. Qed.

Lemma match_pair_run I J st :
  hasBeenCanceled (my_progress_bar st) = false →
  match_pair' I st J = with_bar (advance 1) (offer' (I, J) (with_bar polled st)).
Proof.
  intros Hc. unfold match_pair, offer, pair_entry. rewrite Hc. simpl.
  repeat case_decide; done.
Qed.

Lemma match_pair_cases I J st :
  match_pair' I st J = with_bar polled st ∨
  match_pair' I st J = with_bar (advance 1) (offer' (I, J) (with_bar polled st)).
Proof.
  destruct (hasBeenCanceled (my_progress_bar st)) eqn:Hc.
  - left. by apply match_pair_canceled.
  - right. by apply match_pair_run.
Qed.

(** *** What one iteration may change *)

Lemma progressed_polled entry T st : progressed entry T st (with_bar polled st).
Proof.
  split; simpl; try done; try lia; [auto|].
  exists []. split; [done|]. split; [apply submseteq_nil_l|].
  intros k Hk. by apply elem_of_nil in Hk.
Qed.

Lemma progressed_advance entry T st n :
  n ≤ length T → progressed entry T st (with_bar (advance n) st).
Proof.
  intros Hn. split; simpl; try done; try lia; [auto|].
  exists []. split; [done|]. split; [apply submseteq_nil_l|].
  intros k Hk. by apply elem_of_nil in Hk.
Qed.

Lemma progressed_trans entry T1 T2 st1 st2 st3 :
  progressed entry T1 st1 st2 → progressed entry T2 st2 st3 →
  progressed entry (T1 ++ T2) st1 st3.
Proof.
  intros [Ho1 He1 Hp1 Hc1 Hk1 Hn1 (l1 & Hl1 & Hs1 & Hi1)]
         [Ho2 He2 Hp2 Hc2 Hk2 Hn2 (l2 & Hl2 & Hs2 & Hi2)].
  split.
  - congruence.
  - congruence.
  - lia.
  - rewrite length_app. lia.
  - auto.
  - intros k v Hv. destruct (Hn2 k v Hv) as [Hv2|(Hnone & Hin & Hent)].
    + destruct (Hn1 k v Hv2) as [?|(? & ? & ?)]; [by left|right].
      split_and!; [done| |done]. apply elem_of_app. by left.
    + right. split_and!; [ |apply elem_of_app; by right|done].
      destruct (map_PutativesMatches st1 !! k) as [w|] eqn:Hw; [|done].
      apply Hk1 in Hw. congruence.
  - exists (l2 ++ l1). split_and!.
    + rewrite Hl2, Hl1. by rewrite app_assoc.
    + rewrite (Permutation_app_comm T1 T2). by apply submseteq_app.
    + intros k [?|?]%elem_of_app; auto.
Qed.

Lemma progressed_after_poll entry T st st' :
  progressed entry T (with_bar polled st) st' → progressed entry T st st'.
Proof.
  intros Hp.
  exact (progressed_trans entry [] T st _ st' (progressed_polled entry [] st) Hp).
Qed.

Lemma progressed_perm entry T T' st st' :
  T ≡ₚ T' → progressed entry T st st' → progressed entry T' st st'.
Proof.
  intros HT [Ho He Hp Hc Hk Hn (l & Hl & Hs & Hi)]. split; try done.
  - by rewrite <- HT.
  - intros k v Hv. destruct (Hn k v Hv) as [?|(? & ? & ?)]; [by left|right].
    by rewrite <- HT.
  - exists l. by rewrite <- HT.
Qed.

Lemma progressed_entry_ext e1 e2 T st st' :
  (∀ k, k ∈ T → e1 k = e2 k) → progressed e1 T st st' → progressed e2 T st st'.
Proof.
  intros Hext [Ho He Hp Hc Hk Hn (l & Hl & Hs & Hi)]. split; try done.
  - intros k v Hv. destruct (Hn k v Hv) as [?|(? & ? & ?)]; [by left|right].
    split_and!; [done|done|]. by rewrite <- Hext.
  - exists l. split_and!; [done|done|]. intros k Hin.
    rewrite <- Hext; [auto|]. eapply elem_of_submseteq; eauto.
Qed.

Lemma progressed_offer k st :
  progressed pair_entry' [k] st (with_bar (advance 1) (offer' k st)).
Proof.
  unfold offer. destruct (pair_entry' k) as [v|] eqn:Hent.
  - split; simpl; try done; try lia.
    + intros k' w Hw. rewrite container_insert_lookup. by rewrite Hw.
    + intros k' w. rewrite container_insert_lookup.
      destruct (map_PutativesMatches st !! k') as [w'|] eqn:Hw'; [auto|].
      case_decide; [|done]. intros [= <-]. right. subst k'.
      split_and!; [done|apply list_elem_of_here|done].
    + exists [k]. split_and!; [done|done|].
      intros k' ->%list_elem_of_singleton. by rewrite Hent.
  - by apply progressed_advance.
Qed.

Lemma progressed_match_pair I J st :
  progressed pair_entry' [(I, J)] st (match_pair' I st J).
Proof.
  destruct (match_pair_cases I J st) as [->| ->].
  - apply progressed_polled.
  - apply progressed_after_poll, progressed_offer.
Qed.

Lemma progressed_foldl I Js st :
  progressed pair_entry' ((λ J, (I, J)) <$> Js) st (foldl (match_pair' I) st Js).
Proof.
  revert st. induction Js as [|J Js IH]; intros st; simpl.
  - split; simpl; try done; try lia; [auto|].
    exists []. split_and!; [done|done|]. intros k Hk. by apply elem_of_nil in Hk.
  - eapply (progressed_trans _ [(I, J)]);
      [apply progressed_match_pair|apply IH].
Qed.

Lemma group_entry_pair_entry k :
  RegionCount (get regions_provider k.1) ≠ 0 → group_entry' k = pair_entry' k.
Proof. intros Hne. unfold group_entry. by case_decide. Qed.

Lemma progressed_match_groups gs st :
  Schedule_valid sched →
  progressed group_entry' (tasks gs) st (match_groups' gs st).
Proof.
  intros Hvalid. revert st. induction gs as [|[I js] gs IH]; intros st.
  - split; simpl; try done; try lia; [auto|].
    exists []. split_and!; [done|done|]. intros k Hk. by apply elem_of_nil in Hk.
  - rewrite tasks_cons. cbn [match_groups fst snd].
    destruct (hasBeenCanceled (my_progress_bar st)); [apply progressed_polled|].
    case_decide as Hcount.
    + eapply progressed_trans; [|apply IH].
      apply progressed_after_poll.
      apply progressed_advance. by rewrite length_fmap.
    + eapply progressed_trans; [|apply IH].
      apply progressed_after_poll.
      unfold match_group. fold (visited sched I js).
      eapply progressed_perm.
      { apply fmap_Permutation, (visited_Permutation sched I js Hvalid). }
      eapply progressed_entry_ext; [|apply progressed_foldl].
      intros [I' J'] (J'' & [= -> ->] & _)%list_elem_of_fmap.
      symmetry. by apply group_entry_pair_entry.
Qed.
(** *** Entries that are never offered *)

Lemma progressed_stable entry T st st' k :
  progressed entry T st st' → entry k = None ∨ k ∉ T →
  map_PutativesMatches st' !! k = map_PutativesMatches st !! k.
Proof.
  intros Hp Hk.
  destruct (map_PutativesMatches st !! k) as [v|] eqn:Hv.
  - by apply (prog_keep _ _ _ _ Hp).
  - destruct (map_PutativesMatches st' !! k) as [w|] eqn:Hw; [|done].
    destruct (prog_new _ _ _ _ Hp k w Hw) as [?|(_ & Hin & Hent)]; [congruence|].
    destruct Hk; [congruence|done].
Qed.

(** *** Runs without cancellation *)

Lemma merged_nil (entry : nat * nat → option IndMatches)
    (m : gmap (nat * nat) IndMatches) (k : nat * nat) :
  merged entry [] m k = m !! k.
Proof.
  unfold merged. destruct (m !! k); [done|].
  case_decide as Hin; [by apply elem_of_nil in Hin|done].
Qed.

Lemma merged_app (entry : nat * nat → option IndMatches) (T1 T2 : list (nat * nat))
    (m m' : gmap (nat * nat) IndMatches) :
  (∀ k, m' !! k = merged entry T1 m k) →
  ∀ k, merged entry T2 m' k = merged entry (T1 ++ T2) m k.
Proof.
  intros Hm k. unfold merged at 1. rewrite Hm. unfold merged.
  destruct (m !! k) as [v|]; [done|].
  destruct (decide (k ∈ T1)) as [H1|H1], (decide (k ∈ T2)) as [H2|H2],
    (decide (k ∈ T1 ++ T2)) as [H12|H12]; try done;
    try (exfalso; apply H12, elem_of_app; auto; fail);
    try (apply elem_of_app in H12 as [?|?]; done);
    by destruct (entry k).
Qed.

Lemma merged_ext (e1 e2 : nat * nat → option IndMatches) (T1 T2 : list (nat * nat))
    (m : gmap (nat * nat) IndMatches) (k : nat * nat) :
  (∀ k, k ∈ T1 ↔ k ∈ T2) → (∀ k, k ∈ T1 → e1 k = e2 k) →
  merged e1 T1 m k = merged e2 T2 m k.
Proof.
  intros HT He. unfold merged. destruct (m !! k); [done|].
  destruct (decide (k ∈ T1)) as [H1|H1], (decide (k ∈ T2)) as [H2|H2]; try done.
  - by apply He.
  - by apply HT in H1.
  - by apply HT in H2.
Qed.

Lemma offer_lookup k st k' :
  map_PutativesMatches (offer' k st) !! k' =
  merged pair_entry' [k] (map_PutativesMatches st) k'.
Proof.
  unfold offer, merged. destruct (pair_entry' k) as [v|] eqn:Hent; simpl.
  - rewrite container_insert_lookup.
    destruct (map_PutativesMatches st !! k'); [done|].
    destruct (decide (k' = k)) as [->|Hne].
    + rewrite decide_True; [done|apply list_elem_of_here].
    + rewrite decide_False; [done|]. by intros ?%list_elem_of_singleton.
  - destruct (map_PutativesMatches st !! k'); [done|].
    case_decide as Hin; [|done].
    apply list_elem_of_singleton in Hin. by subst.
Qed.

Lemma offer_bar k st : my_progress_bar (offer' k st) = my_progress_bar st.
Proof. unfold offer. by destruct (pair_entry' k). Qed.

Lemma foldl_exact I Js st :
  never_canceled (my_progress_bar st) →
  (∀ k, map_PutativesMatches (foldl (match_pair' I) st Js) !! k =
        merged pair_entry' ((λ J, (I, J)) <$> Js) (map_PutativesMatches st) k) ∧
  count (my_progress_bar (foldl (match_pair' I) st Js)) =
    count (my_progress_bar st) + length Js.
Proof.
  revert st. induction Js as [|J Js IH]; intros st Hnever.
  - split; [|simpl; lia]. intros k. by rewrite merged_nil.
  - cbn [foldl]. rewrite match_pair_run by apply Hnever.
    set (st1 := with_bar (advance 1) (offer' (I, J) (with_bar polled st))).
    assert (never_canceled (my_progress_bar st1)) as Hnever1.
    { intros t. subst st1. simpl. rewrite offer_bar. simpl. apply Hnever. }
    destruct (IH st1 Hnever1) as [Hmap Hcount]. split.
    + intros k. rewrite Hmap.
      change ((λ J, (I, J)) <$> J :: Js) with ([(I, J)] ++ ((λ J, (I, J)) <$> Js)).
      apply merged_app. intros k'. subst st1. simpl. by rewrite offer_lookup.
    + rewrite Hcount. subst st1. simpl. rewrite offer_bar. simpl. lia.
Qed.

Lemma match_groups_exact gs st :
  Schedule_valid sched → never_canceled (my_progress_bar st) →
  (∀ k, map_PutativesMatches (match_groups' gs st) !! k =
        merged group_entry' (tasks gs) (map_PutativesMatches st) k) ∧
  count (my_progress_bar (match_groups' gs st)) =
    count (my_progress_bar st) + length (tasks gs).
Proof.
  intros Hvalid. revert st. induction gs as [|[I js] gs IH]; intros st Hnever.
  - split; [|simpl; lia]. intros k. by rewrite merged_nil.
  - rewrite tasks_cons. cbn [match_groups fst snd].
    unfold hasBeenCanceled. rewrite Hnever.
    case_decide as Hcount.
    + set (st1 := with_bar (advance (length js)) (with_bar polled st)).
      destruct (IH st1) as [Hmap Hc]; [done|]. split.
      * intros k. rewrite Hmap. apply merged_app. intros k'.
        subst st1. simpl. unfold merged.
        destruct (map_PutativesMatches st !! k'); [done|].
        case_decide as Hin; [|done].
        apply list_elem_of_fmap in Hin as (J & -> & _).
        unfold group_entry. simpl. by case_decide.
      * rewrite Hc. subst st1. simpl. rewrite length_app, length_fmap. lia.
    + unfold match_group. fold (visited sched I js).
      set (st1 := foldl (match_pair' I) (with_bar polled st) (visited sched I js)).
      destruct (foldl_exact I (visited sched I js) (with_bar polled st)) as [Hm1 Hc1];
        [done|]. fold st1 in Hm1, Hc1.
      pose proof (visited_Permutation sched I js Hvalid) as Hperm.
      destruct (IH st1) as [Hmap Hc].
      { intros t. subst st1.
        rewrite (prog_oracle _ _ _ _ (progressed_foldl I _ _)). apply Hnever. }
      split.
      * intros k. rewrite Hmap. apply merged_app. intros k'. rewrite Hm1. simpl.
        apply merged_ext.
        -- intros k''. by rewrite Hperm.
        -- intros [I' J'] (J'' & [= -> ->] & _)%list_elem_of_fmap.
           symmetry. by apply group_entry_pair_entry.
      * rewrite Hc, Hc1. simpl. rewrite length_app, length_fmap, Hperm. lia.
Qed.

(** *** After a cancellation *)

Lemma foldl_canceled I Js st :
  sticky (my_progress_bar st) → hasBeenCanceled (my_progress_bar st) = true →
  ∃ n, foldl (match_pair' I) st Js =
       mkState (map_PutativesMatches st)
               (mkProgress (hasBeenCanceled_at (my_progress_bar st))
                           (polls (my_progress_bar st) + n)
                           (count (my_progress_bar st))
                           (expected_count (my_progress_bar st)))
               (insert_calls st).
Proof.
  revert st. induction Js as [|J Js IH]; intros st Hsticky Hc.
  - exists 0. destruct st as [m [o p c e] l]. simpl. by rewrite Nat.add_0_r.
  - cbn [foldl]. rewrite match_pair_canceled by done.
    destruct (IH (with_bar polled st)) as [n Hn].
    + done.
    + unfold hasBeenCanceled in *. simpl. eapply Hsticky; [|done]. lia.
    + exists (S n). rewrite Hn. simpl. do 2 f_equal. lia.
Qed.

Lemma match_groups_canceled gs st :
  hasBeenCanceled (my_progress_bar st) = true →
  match_groups' gs st = st ∨ match_groups' gs st = with_bar polled st.
Proof.
  intros Hc. destruct gs as [|g gs]; [by left|right].
  cbn [match_groups]. by rewrite Hc.
Qed.

(** *** Splitting a run at a point reached without cancellation *)

Lemma match_groups_app gs1 gs2 st :
  (∀ t, t < polls (my_progress_bar (match_groups' gs1 st)) →
        hasBeenCanceled_at (my_progress_bar st) t = false) →
  match_groups' (gs1 ++ gs2) st = match_groups' gs2 (match_groups' gs1 st).
Proof.
  revert st. induction gs1 as [|[I js] gs1 IH]; intros st Hquiet.
  - done.
  - revert Hquiet. cbn [app match_groups fst snd].
    destruct (hasBeenCanceled (my_progress_bar st)) eqn:Hc.
    + intros Hquiet. unfold hasBeenCanceled in Hc.
      rewrite Hquiet in Hc; [done|]. simpl. lia.
    + case_decide as Hcount; intros Hquiet.
      * apply IH. intros t Ht. by apply Hquiet.
      * apply IH. intros t Ht.
        unfold match_group.
        rewrite (prog_oracle _ _ _ _ (progressed_foldl I _ _)). simpl.
        by apply Hquiet.
Qed.

(** The rest of a run that has observed the cancellation changes nothing
    but the number of queries made. *)
Lemma rest_canceled I Js gs st :
  sticky (my_progress_bar st) → hasBeenCanceled (my_progress_bar st) = true →
  let st' := match_groups' gs (foldl (match_pair' I) st Js) in
  map_PutativesMatches st' = map_PutativesMatches st ∧
  insert_calls st' = insert_calls st ∧
  count (my_progress_bar st') = count (my_progress_bar st).
Proof.
  intros Hsticky Hc. destruct (foldl_canceled I Js st Hsticky Hc) as [n Hn].
  simpl. rewrite Hn.
  match goal with |- context [match_groups' gs ?s] =>
    destruct (match_groups_canceled gs s) as [-> | ->] end; [|done|done].
  unfold hasBeenCanceled in *. simpl. eapply Hsticky; [|done]. lia.
Qed.
End loops.

(** ** Zero-mean descriptor and hashed descriptions (lines 77-126) *)

Section preparation.
Context {F : Type} `{!FloatOps F} `{!CascadeHasherOps F}.
Context (sT : ScalarT).
Context (regions_provider : Regions_Provider F).

Local Abbreviation summary_row' := (summary_row sT regions_provider).
Local Abbreviation zero_mean_step' := (zero_mean_step sT regions_provider).

Lemma zero_mean_loop used k :
  0 < k ≤ length used →
  foldl (zero_mean_step' used) [] (seq 0 k) =
  (summary_row' (dimension0 regions_provider used) <$> take k used) ++
  replicate (length used - k) (replicate (dimension0 regions_provider used) f0).
Proof.
  induction k as [|k IH]; [lia|]. intros Hk.
  rewrite seq_S, foldl_snoc. simpl.
  assert (is_Some (used !! k)) as [I HI] by (apply lookup_lt_is_Some; lia).
  rewrite (take_S_r _ _ I) by done. rewrite fmap_app. simpl.
  replace (length used - k) with (S (length used - S k)) in * by lia.
  unfold zero_mean_step at 1.
  rewrite (list_lookup_total_correct _ _ _ HI).
  destruct (decide (k = 0)) as [->|Hk0].
  - simpl. unfold summary_row, dimension0.
    destruct used as [|I' used']; [simpl in Hk; lia|].
    simpl in HI. injection HI as ->. simpl.
    rewrite Nat.sub_0_r. case_decide; done.
  - rewrite IH by lia.
    assert (length (summary_row' (dimension0 regions_provider used) <$> take k used) = k)
      as Hlen by (rewrite length_fmap, length_take; lia).
    rewrite <- app_assoc. cbn [replicate app].
    case_decide as Hcount.
    + rewrite insert_app_r_alt by (rewrite Hlen; lia).
      rewrite Hlen, Nat.sub_diag. simpl. do 2 f_equal.
      unfold summary_row. by rewrite decide_True.
    + do 2 f_equal. unfold summary_row. by rewrite decide_False.
Qed.

Lemma matForZeroMean_of_rows used :
  matForZeroMean_of sT regions_provider used =
  summary_row' (dimension0 regions_provider used) <$> used.
Proof.
  unfold matForZeroMean_of. destruct (decide (length used = 0)) as [H0|H0].
  - destruct used; [done|simpl in H0; lia].
  - rewrite zero_mean_loop by lia.
    by rewrite firstn_all, Nat.sub_diag, app_nil_r.
Qed.

Lemma index_fold_lookup cascade_hasher zero_mean_descriptor used order
    (m : gmap nat HashedDescriptions) (I : nat) :
  foldl (index_step sT regions_provider cascade_hasher zero_mean_descriptor used)
        m order !! I =
  if decide (I ∈ (λ i, used !!! i) <$> order)
  then Some (hashed_of sT regions_provider cascade_hasher zero_mean_descriptor I)
  else m !! I.
Proof.
  revert m. induction order as [|i order IH]; intros m.
  - rewrite fmap_nil, decide_False; [done|]. apply not_elem_of_nil.
  - cbn [foldl]. rewrite IH. rewrite fmap_cons.
    destruct (decide (I ∈ (λ i, used !!! i) <$> order)) as [Hin|Hin].
    + rewrite decide_True; [done|]. by apply list_elem_of_further.
    + unfold index_step. destruct (decide (I = used !!! i)) as [->|Hne].
      * rewrite lookup_insert_eq. rewrite decide_True; [done|].
        apply list_elem_of_here.
      * rewrite lookup_insert_ne by done. rewrite decide_False; [done|].
        intros [?|?]%elem_of_cons; done.
Qed.

Lemma hashed_base_of_lookup sched cascade_hasher zero_mean_descriptor used (I : nat) :
  Schedule_valid sched →
  hashed_base_of sT regions_provider sched cascade_hasher zero_mean_descriptor used !! I =
  if decide (I ∈ used)
  then Some (hashed_of sT regions_provider cascade_hasher zero_mean_descriptor I)
  else None.
Proof.
  intros [Hi _]. unfold hashed_base_of. rewrite index_fold_lookup, lookup_empty.
  assert ((λ i, used !!! i) <$> sched_index sched (seq 0 (length used)) ≡ₚ used)
    as Hperm by (by rewrite Hi, lookup_total_seq_fmap).
  destruct (decide (I ∈ used)) as [Hin|Hin].
  - rewrite decide_True; [done|]. by rewrite Hperm.
  - rewrite decide_False; [done|]. by rewrite Hperm.
Qed.

Lemma hashed_base_of_schedule s1 s2 cascade_hasher zero_mean_descriptor used :
  Schedule_valid s1 → Schedule_valid s2 →
  hashed_base_of sT regions_provider s1 cascade_hasher zero_mean_descriptor used =
  hashed_base_of sT regions_provider s2 cascade_hasher zero_mean_descriptor used.
Proof.
  intros H1 H2. apply map_eq. intros I. by rewrite !hashed_base_of_lookup.
Qed.
End preparation.

(** ** The matches of one pair (lines 165-207) *)

Lemma elem_of_NNdistanceRatio {F : Type} `{!FloatOps F}
    (distances : list F) (NN : nat) (fratio : F) (i : nat) :
  i ∈ NNdistanceRatio distances NN fratio ↔
  i < length distances `div` NN ∧
  fltb (distances !!! (i * NN)) (fmul fratio (distances !!! (i * NN + 1))) = true.
Proof.
  unfold NNdistanceRatio. rewrite list_elem_of_filter, elem_of_seq.
  split; intros [? ?]; split; try done; lia.
Qed.

Lemma NoDup_NNdistanceRatio {F : Type} `{!FloatOps F}
    (distances : list F) (NN : nat) (fratio : F) :
  NoDup (NNdistanceRatio distances NN fratio).
Proof. unfold NNdistanceRatio. apply NoDup_filter, NoDup_seq. Qed.

Lemma submseteq_NoDup {A} (l k : list A) : l ⊆+ k → NoDup k → NoDup l.
Proof.
  intros (k' & Hk)%submseteq_Permutation Hnd. rewrite Hk in Hnd.
  by apply NoDup_app in Hnd as (? & _ & _).
Qed.

Lemma div2_lt (g n : nat) : g < n `div` 2 → g * 2 + 1 < n.
Proof.
  intros Hg. pose proof (Nat.div_mod_eq n 2) as Hn.
  assert (2 * (n `div` 2) ≤ n) by lia. lia.
Qed.

Section pair_properties.
Context {F : Type} `{!FloatOps F} `{!CascadeHasherOps F} `{!MatchFilters F}.
Context (sT : ScalarT).
Context (regions_provider : Regions_Provider F).
Context (fDistRatio : F).
Context (cascade_hasher : CascadeHasher).
Context (hashed_base_ : gmap nat HashedDescriptions).

Local Abbreviation pair_candidates' :=
  (pair_candidates sT regions_provider cascade_hasher hashed_base_).
Local Abbreviation nn_ratio_indexes' :=
  (nn_ratio_indexes sT regions_provider fDistRatio cascade_hasher hashed_base_).
Local Abbreviation ratio_matches' :=
  (ratio_matches sT regions_provider fDistRatio cascade_hasher hashed_base_).
Local Abbreviation pair_matches' :=
  (pair_matches sT regions_provider fDistRatio cascade_hasher hashed_base_).
Local Abbreviation pair_entry' :=
  (pair_entry sT regions_provider fDistRatio cascade_hasher hashed_base_).
Local Abbreviation group_entry' :=
  (group_entry sT regions_provider fDistRatio cascade_hasher hashed_base_).

Lemma pair_candidates_contract `{!CascadeHasherLaws F} I J :
  knn_contract
    (mat_of (get regions_provider J) (DescriptorLength (get regions_provider I)))
    (mat_of (get regions_provider I) (DescriptorLength (get regions_provider I)))
    (pair_candidates' I J).
Proof. apply Match_HashedDescriptions_contract. Qed.

Lemma pair_matches_sub `{!MatchFiltersLaws F} I J :
  pair_matches' I J ⊆+ ratio_matches' I J.
Proof.
  unfold pair_matches.
  etrans; [apply IndMatchDecorator_getDeduplicated_sub|].
  apply IndMatch_getDeduplicated_sub.
Qed.

(** A group accepted by the ratio test has both its records. *)
Lemma nn_ratio_indexes_lt `{!CascadeHasherLaws F} I J index :
  index ∈ nn_ratio_indexes' I J → index * 2 + 1 < length (pair_candidates' I J).1.
Proof.
  unfold nn_ratio_indexes. rewrite elem_of_NNdistanceRatio. intros [Hlt _].
  rewrite (knn_lengths _ _ _ (pair_candidates_contract I J)).
  by apply div2_lt.
Qed.

Lemma elem_of_pair_matches `{!CascadeHasherLaws F} `{!MatchFiltersLaws F} I J m :
  m ∈ pair_matches' I J →
  ∃ index,
    index ∈ nn_ratio_indexes' I J ∧
    index * 2 < length (pair_candidates' I J).1 ∧
    m = mkIndMatch (j_ ((pair_candidates' I J).1 !!! (index * 2)))
                   (i_ ((pair_candidates' I J).1 !!! (index * 2))).
Proof.
  intros Hm. eapply elem_of_submseteq in Hm; [|apply pair_matches_sub].
  unfold ratio_matches in Hm. apply list_elem_of_fmap in Hm as (index & -> & Hin).
  exists index. split_and!; [done| |done].
  apply nn_ratio_indexes_lt in Hin. lia.
Qed.

Lemma pair_matches_in_range `{!CascadeHasherLaws F} `{!MatchFiltersLaws F} I J m :
  m ∈ pair_matches' I J →
  i_ m < RegionCount (get regions_provider I) ∧
  j_ m < RegionCount (get regions_provider J).
Proof.
  intros (index & _ & Hlt & ->)%elem_of_pair_matches. simpl.
  destruct (knn_in_range _ _ _ (pair_candidates_contract I J)
              ((pair_candidates' I J).1 !!! (index * 2))) as [Hi Hj].
  { by apply list_elem_of_lookup_total_2. }
  simpl in Hi, Hj. done.
Qed.

Lemma NoDup_ratio_matches_queries `{!CascadeHasherLaws F} I J :
  NoDup (j_ <$> ratio_matches' I J).
Proof.
  unfold ratio_matches. rewrite <- list_fmap_compose.
  apply NoDup_fmap_2_strong; [|apply NoDup_NNdistanceRatio].
  intros g g' Hg Hg'. simpl. intros Heq.
  apply nn_ratio_indexes_lt in Hg, Hg'.
  apply (knn_one_group _ _ _ (pair_candidates_contract I J)); [lia|lia|done].
Qed.

Lemma NoDup_pair_matches_queries `{!CascadeHasherLaws F} `{!MatchFiltersLaws F} I J :
  NoDup (j_ <$> pair_matches' I J).
Proof.
  eapply submseteq_NoDup; [|apply (NoDup_ratio_matches_queries I J)].
  apply fmap_submseteq, pair_matches_sub.
Qed.

(** An empty query has no candidate, hence no match. *)
Lemma pair_matches_no_query `{!CascadeHasherLaws F} `{!MatchFiltersLaws F} I J :
  RegionCount (get regions_provider J) = 0 → pair_matches' I J = [].
Proof.
  intros HJ. destruct (pair_matches' I J) as [|m l] eqn:Hm; [done|].
  destruct (pair_matches_in_range I J m) as [_ Hlt]; [|lia].
  rewrite Hm. apply list_elem_of_here.
Qed.

Lemma group_entry_empty `{!CascadeHasherLaws F} `{!MatchFiltersLaws F} I J :
  RegionCount (get regions_provider I) = 0 ∨
  RegionCount (get regions_provider J) = 0 →
  group_entry' (I, J) = None.
Proof.
  intros [HI|HJ]; unfold group_entry, pair_entry; simpl.
  - by rewrite decide_True.
  - rewrite (pair_matches_no_query I J HJ). repeat case_decide; done.
Qed.

Lemma group_entry_type_mismatch I J :
  Type_id (get regions_provider I) ≠ Type_id (get regions_provider J) →
  group_entry' (I, J) = None.
Proof.
  intros Hne. unfold group_entry, pair_entry. simpl.
  case_decide; [done|]. by rewrite decide_True.
Qed.

Lemma group_entry_Some k v :
  group_entry' k = Some v →
  v = pair_matches' k.1 k.2 ∧ v ≠ [] ∧
  RegionCount (get regions_provider k.1) ≠ 0 ∧
  Type_id (get regions_provider k.1) = Type_id (get regions_provider k.2).
Proof.
  unfold group_entry, pair_entry. repeat case_decide; try done.
  intros [= <-]. split_and!; done.
Qed.
End pair_properties.

(** ** The whole run *)

Section run_properties.
Context {F : Type} `{!FloatOps F} `{!CascadeHasherOps F} `{!MatchFilters F}.
Context (sT : ScalarT).
Context (regions_provider : Regions_Provider F).
Context (sched : Schedule).
Context (fDistRatio : F).
Context (pairs : gset (nat * nat)).
Context (map_PutativesMatches0 : gmap (nat * nat) IndMatches).
Context (my_progress_bar0 : option C_Progress).

Local Abbreviation final :=
  (impl_Match sT regions_provider sched fDistRatio pairs
     map_PutativesMatches0 my_progress_bar0).
Local Abbreviation initial :=
  (mkState map_PutativesMatches0
     (restart (size pairs) (default C_Progress_dummy my_progress_bar0)) []).
Local Abbreviation run_entry :=
  (group_entry sT regions_provider fDistRatio (run_hasher regions_provider pairs)
     (run_hashed_base sT regions_provider sched pairs)).

Lemma impl_Match_unfold :
  final =
  match_groups sT regions_provider sched fDistRatio
    (run_hasher regions_provider pairs)
    (run_hashed_base sT regions_provider sched pairs)
    (map_iter (map_Pairs pairs)) initial.
Proof. done. Qed.

Lemma impl_Match_progressed :
  Schedule_valid sched →
  progressed run_entry (Pair_Set_iter pairs) initial final.
Proof.
  intros Hvalid. rewrite impl_Match_unfold.
  eapply progressed_perm; [apply tasks_map_Pairs_Permutation|].
  by apply progressed_match_groups.
Qed.

Lemma impl_Match_exact :
  Schedule_valid sched →
  never_canceled (default C_Progress_dummy my_progress_bar0) →
  (∀ k, map_PutativesMatches final !! k =
        merged run_entry (Pair_Set_iter pairs) map_PutativesMatches0 k) ∧
  count (my_progress_bar final) = size pairs.
Proof.
  intros Hvalid Hnever. rewrite impl_Match_unfold.
  edestruct (match_groups_exact sT regions_provider sched fDistRatio
               (run_hasher regions_provider pairs)
               (run_hashed_base sT regions_provider sched pairs)
               (map_iter (map_Pairs pairs)) initial) as [Hmap Hcount];
    [done|done|].
  split.
  - intros k. rewrite Hmap. simpl. apply merged_ext; [|done].
    intros k'. by rewrite tasks_map_Pairs_Permutation.
  - rewrite Hcount. simpl. apply length_tasks_map_Pairs.
Qed.
End run_properties.

(** ** The reference instance satisfies the contracts *)

Module ReferenceLaws.
Import Reference.

Global Instance Q_FloatLaws : FloatLaws Q.
Proof. split. intros x. unfold fltb; simpl. unfold Qltb. apply Z.ltb_irrefl. Qed.

Lemma length_neighbours (query base : BaseMat) (i : nat) :
  length (neighbours query base i) = mat_rows base.
Proof.
  unfold neighbours. by rewrite merge_sort_Permutation, length_fmap, length_seq.
Qed.

Lemma elem_of_neighbours (query base : BaseMat) (i : nat) (c : Z * nat) :
  c ∈ neighbours query base i → c.2 < mat_rows base.
Proof.
  unfold neighbours. rewrite merge_sort_Permutation.
  intros (j & -> & Hj)%list_elem_of_fmap. simpl. apply elem_of_seq in Hj. lia.
Qed.

Lemma elem_of_two_nearest (query base : BaseMat) (i : nat) (r : IndMatch * Q) :
  r ∈ two_nearest query base i → i_ r.1 = i ∧ j_ r.1 < mat_rows base.
Proof.
  unfold two_nearest. intros (c & -> & Hc)%list_elem_of_fmap. simpl.
  split; [done|]. eapply elem_of_neighbours.
  eapply elem_of_submseteq; [exact Hc|apply submseteq_take].
Qed.

Lemma two_nearest_pair (query base : BaseMat) (i : nat) :
  2 ≤ mat_rows base →
  ∃ r1 r2, two_nearest query base i = [r1; r2] ∧ i_ r1.1 = i.
Proof.
  intros Hbase. pose proof (length_neighbours query base i) as Hlen.
  unfold two_nearest.
  destruct (neighbours query base i) as [|c1 [|c2 l]]; simpl in Hlen; [lia|lia|].
  simpl. eauto.
Qed.

(** The first record of the group [g] belongs to the query row [s + g]. *)
Lemma rank1_query (query base : BaseMat) (n s g : nat) :
  2 ≤ mat_rows base → g < n →
  i_ ((seq s n ≫= two_nearest query base).*1 !!! (g * 2)) = s + g.
Proof.
  intros Hbase. revert s g. induction n as [|n IH]; intros s g Hg; [lia|].
  cbn [seq]. rewrite bind_cons.
  destruct (two_nearest_pair query base s Hbase) as (r1 & r2 & -> & Hr1).
  destruct g as [|g]; simpl.
  - rewrite Hr1. lia.
  - rewrite IH by lia. lia.
Qed.

Lemma exhaustive_contract (query base : BaseMat) :
  knn_contract query base (exhaustive_search query base).
Proof.
  unfold exhaustive_search. case_decide as Hbase.
  - split; simpl.
    + by rewrite !length_fmap.
    + intros c (r & -> & Hr)%list_elem_of_fmap.
      apply list_elem_of_bind in Hr as (i & Hr & Hi).
      apply elem_of_two_nearest in Hr as [-> ?]. apply elem_of_seq in Hi. lia.
    + assert (∀ n s, length (seq s n ≫= two_nearest query base) = 2 * n) as Hlen.
      { induction n as [|n IH]; intros s; [done|].
        cbn [seq]. rewrite bind_cons, length_app, IH.
        destruct (two_nearest_pair query base s Hbase) as (r1 & r2 & -> & _).
        simpl. lia. }
      intros g g'. rewrite length_fmap, Hlen. intros Hg Hg'.
      rewrite !rank1_query by (done || lia). lia.
  - split; simpl; [done| |intros; lia].
    intros c Hc. by apply elem_of_nil in Hc.
Qed.

Global Instance exhaustive_CascadeHasherLaws : CascadeHasherLaws Q.
Proof. split. intros. apply exhaustive_contract. Qed.

Lemma dedup_by_sublist {A K : Type} (eqb : K → K → bool) (key : A → K)
    (seen : list K) (l : list A) :
  dedup_by eqb key seen l `sublist_of` l.
Proof.
  revert seen. induction l as [|x l IH]; intros seen; simpl.
  - constructor.
  - destruct (existsb (eqb (key x)) seen).
    + apply sublist_cons, IH.
    + apply sublist_skip, IH.
Qed.

Global Instance first_MatchFiltersLaws : MatchFiltersLaws Q.
Proof.
  split.
  - intros matches. simpl. apply NoDup_submseteq.
    + apply NoDup_remove_dups.
    + intros x. by rewrite elem_of_remove_dups.
  - intros left right matches. simpl. apply sublist_submseteq, dedup_by_sublist.
Qed.

Lemma sequential_valid : Schedule_valid sequential.
Proof. split; intros; done. Qed.

Lemma reversed_valid : Schedule_valid reversed.
Proof. split; intros; simpl; apply reverse_Permutation. Qed.
End ReferenceLaws.

(** The worked example of the ratio test: distances 1 and 4 for the first
    query, 3 and 3.2 for the second, ratio 0.8.  Only the first group passes
    (1 < 0.64 * 4, but not 3 < 0.64 * 3.2). *)
Example NNdistanceRatio_worked_example :
  NNdistanceRatio [Qmake 1 1; Qmake 4 1; Qmake 3 1; Qmake 16 5] 2
    (Square (Qmake 4 5)) = [0].
Proof. reflexivity. Qed.

(** The reference run on the single pair (0,1): rows 0 and 2 of view 1 are
    matched, and the record of each is (row of view 0, row of view 1). *)
Example reference_run :
  map_to_list
    (out_matches
       (Cascade_Hashing_Matcher_Regions_Match Reference.matcher sequential
          (Some Reference.provider) {[ (0, 1) ]} ∅ None)) =
  [((0, 1), [mkIndMatch 0 0; mkIndMatch 1 2])].
Proof. reflexivity. Qed.

(** * The claims *)

(** C1 (distance ratio test).  In the matching of a pair [(I, J)] the engine
    is queried with the descriptors of [J] against those of [I]; take a group
    [index] of two distances of its answer, [d1] (nearest) and [d2] (second
    nearest).  The group is accepted by the ratio test exactly when
    [d1 < (fDistRatio * fDistRatio) * d2] in the float arithmetic of the
    program, and it is rejected when [d1] equals
    [(fDistRatio * fDistRatio) * d2].  This holds whether or not
    [d1 <= d2]. *)
Theorem ratio_test_correct {F : Type} `{!FloatOps F} `{!CascadeHasherOps F}
    `{!FloatLaws F}
    (sT : ScalarT) (regions_provider : Regions_Provider F) (fDistRatio : F)
    (cascade_hasher : CascadeHasher) (hashed_base_ : gmap nat HashedDescriptions)
    (I J index : nat) :
  let regionsI := get regions_provider I in
  let regionsJ := get regions_provider J in
  let query :=
    mkBaseMat (DescriptorRawData regionsJ) (RegionCount regionsJ)
      (DescriptorLength regionsI) in
  let base :=
    mkBaseMat (DescriptorRawData regionsI) (RegionCount regionsI)
      (DescriptorLength regionsI) in
  let distances :=
    (Match_HashedDescriptions cascade_hasher sT
       (default HashedDescriptions_new (hashed_base_ !! J)) query
       (default HashedDescriptions_new (hashed_base_ !! I)) base).2 in
  let d1 := distances !!! (index * 2) in
  let d2 := distances !!! (index * 2 + 1) in
  index < length distances `div` 2 →
  (index ∈ nn_ratio_indexes sT regions_provider fDistRatio cascade_hasher
             hashed_base_ I J ↔
   fltb d1 (fmul (fmul fDistRatio fDistRatio) d2) = true) ∧
  (d1 = fmul (fmul fDistRatio fDistRatio) d2 →
   index ∉ nn_ratio_indexes sT regions_provider fDistRatio cascade_hasher
             hashed_base_ I J).
Proof.
  intros regionsI regionsJ query base distances d1 d2 Hgroup.
  unfold nn_ratio_indexes.
  change (pair_candidates sT regions_provider cascade_hasher hashed_base_ I J).2
    with distances.
  rewrite elem_of_NNdistanceRatio. fold d1 d2.
  change (Square fDistRatio) with (fmul fDistRatio fDistRatio). split.
  - split; [by intros [_ ?]|by split].
  - intros Heq [_ Hlt]. rewrite Heq, fltb_irrefl in Hlt. done.
Qed.

(** On the reference instance with the ratio 17/20.  The first row of view 1
    has its nearest rows of view 0 at the squared distances 1 and 4, and the
    group is accepted: 1 < 289/400 * 4.  The second row has them at 4 and 5,
    and the group is rejected: 4 < 289/400 * 5 = 3.6125 fails, although
    4 < 17/20 * 5 = 4.25 holds. *)
Lemma ratio_test_correct_witness :
  1 < length (pair_candidates ScalarT_uchar Reference.provider
                Reference.hasher0 ∅ 0 1).2 `div` 2 ∧
  (pair_candidates ScalarT_uchar Reference.provider Reference.hasher0 ∅ 0 1).2 =
    [Qmake 1 1; Qmake 4 1; Qmake 4 1; Qmake 5 1; Qmake 0 1; Qmake 9 1] ∧
  (0 ∈ nn_ratio_indexes ScalarT_uchar Reference.provider (Qmake 17 20)
         Reference.hasher0 ∅ 0 1 ↔
   Reference.Qltb (Qmake 1 1)
     (Qmult (Qmult (Qmake 17 20) (Qmake 17 20)) (Qmake 4 1)) = true) ∧
  (1 ∈ nn_ratio_indexes ScalarT_uchar Reference.provider (Qmake 17 20)
         Reference.hasher0 ∅ 0 1 ↔
   Reference.Qltb (Qmake 4 1)
     (Qmult (Qmult (Qmake 17 20) (Qmake 17 20)) (Qmake 5 1)) = true) ∧
  Reference.Qltb (Qmake 4 1)
    (Qmult (Qmult (Qmake 17 20) (Qmake 17 20)) (Qmake 5 1)) = false ∧
  Reference.Qltb (Qmake 4 1) (Qmult (Qmake 17 20) (Qmake 5 1)) = true ∧
  nn_ratio_indexes ScalarT_uchar Reference.provider (Qmake 17 20)
    Reference.hasher0 ∅ 0 1 = [0; 2].
Proof.
  split; [vm_compute; lia|]. split; [reflexivity|].
  split; [|split; [|split; [reflexivity|split; reflexivity]]].
  - refine (proj1 (ratio_test_correct (F := Q) ScalarT_uchar Reference.provider
                     (Qmake 17 20) Reference.hasher0 ∅ 0 1 0 _)).
    vm_compute. lia.
  - refine (proj1 (ratio_test_correct (F := Q) ScalarT_uchar Reference.provider
                     (Qmake 17 20) Reference.hasher0 ∅ 0 1 1 _)).
    vm_compute. lia.
Defined.

(** C6 (unsupported configurations).  When the provider is missing, holds
    binary descriptors, or has a scalar type that is neither [unsigned char]
    nor [float], [Cascade_Hashing_Matcher_Regions::Match] returns with the
    container and the progress sink as they were passed, without any call of
    [insert]; a line is sent to [std::cerr] only for the unknown scalar type
    (provider present and not binary). *)
Theorem unsupported_configuration {F : Type} `{!FloatOps F} `{!CascadeHasherOps F}
    `{!MatchFilters F} `{!TypeInfo}
    (this : Cascade_Hashing_Matcher_Regions F) (sched : Schedule)
    (regions_provider : option (Regions_Provider F))
    (pairs : gset (nat * nat))
    (map_PutativesMatches0 : gmap (nat * nat) IndMatches)
    (my_progress_bar0 : option C_Progress) :
  unsupported regions_provider →
  Cascade_Hashing_Matcher_Regions_Match this sched regions_provider pairs
    map_PutativesMatches0 my_progress_bar0 =
  mkOutcome map_PutativesMatches0 my_progress_bar0 [] (reported regions_provider).
Proof.
  unfold unsupported, Cascade_Hashing_Matcher_Regions_Match, reported.
  destruct regions_provider as [provider|]; [|done].
  destruct (IsBinary provider); [done|].
  intros [?|[Hu Hf]]; [done|].
  by rewrite !decide_False.
Qed.

(** A provider of descriptors of type ["d"] on the reference instance. *)
Lemma unsupported_configuration_witness :
  unsupported (Some (mkProvider false "d" Reference.regions_of)) ∧
  Cascade_Hashing_Matcher_Regions_Match Reference.matcher sequential
    (Some (mkProvider false "d" Reference.regions_of)) {[ (0, 1) ]} ∅ None =
  mkOutcome ∅ None [] ["Matcher not implemented for this region type"].
Proof.
  assert (unsupported (Some (mkProvider false "d" Reference.regions_of))) as H.
  { right. split; discriminate. }
  split; [exact H|].
  exact (unsupported_configuration Reference.matcher sequential
           (Some (mkProvider false "d" Reference.regions_of)) {[ (0, 1) ]} ∅ None H).
Defined.

(** C9 (global normalizer).  The used views are iterated in strictly
    increasing order and are exactly the views named by some pair.  The
    zero-mean descriptor is the engine's reduction of the matrix that has one
    row per used view: for a view with at least one descriptor, the engine's
    reduction of the matrix of its descriptors (its raw buffer seen as
    [RegionCount] rows of [DescriptorLength] coefficients), and for a view
    without descriptors a row of zeros (as long as the descriptors of the
    first used view).  Every hashed description is built from the matrix of
    the descriptors of its view with this vector, and pair sets that use the
    same views get the same vector. *)
Theorem zero_mean_descriptor_correct {F : Type} `{!FloatOps F} `{!CascadeHasherOps F}
    (sT : ScalarT) (regions_provider : Regions_Provider F) (sched : Schedule)
    (pairs : gset (nat * nat)) :
  Schedule_valid sched →
  let used := set_iter (used_index pairs) in
  let descriptors_of (I : nat) :=
    mkBaseMat (DescriptorRawData (get regions_provider I))
      (RegionCount (get regions_provider I))
      (DescriptorLength (get regions_provider I)) in
  let row_of (I : nat) :=
    if decide (0 < RegionCount (get regions_provider I))
    then GetZeroMeanDescriptor sT (descriptors_of I)
    else replicate (DescriptorLength (get regions_provider (used !!! 0))) f0 in
  StronglySorted (<) used ∧
  (∀ I, I ∈ used ↔ ∃ p, p ∈ pairs ∧ (I = p.1 ∨ I = p.2)) ∧
  run_zero_mean sT regions_provider pairs =
    GetZeroMeanDescriptor_f (row_of <$> used) ∧
  (∀ I, I ∈ used →
        run_hashed_base sT regions_provider sched pairs !! I =
        Some (CreateHashedDescriptions (run_hasher regions_provider pairs) sT
                (descriptors_of I) (run_zero_mean sT regions_provider pairs))) ∧
  (∀ pairs' : gset (nat * nat),
     (∀ I, I ∈ used_index pairs' ↔ I ∈ used_index pairs) →
     run_zero_mean sT regions_provider pairs' = run_zero_mean sT regions_provider pairs).
Proof.
  intros Hvalid used descriptors_of row_of. split_and!.
  - apply set_iter_increasing.
  - intros I. unfold used. by rewrite elem_of_set_iter, elem_of_used_index.
  - unfold run_zero_mean, zero_mean_descriptor_of. fold used.
    by rewrite matForZeroMean_of_rows.
  - intros I HI. unfold run_hashed_base. fold used.
    rewrite hashed_base_of_lookup by done. by rewrite decide_True.
  - intros pairs' Hsame. unfold run_zero_mean. f_equal.
    apply set_iter_unique; [apply set_iter_increasing|].
    intros I. by rewrite elem_of_set_iter.
Qed.

(** On the reference instance with the pairs (0,1), (1,2) and (3,0).  The
    rows of the views 0, 1 and 3 are the means of their three descriptors
    ((0,0), (3,0), (1,4) for view 0 and (1,0), (1,2), (3,0) for the views 1
    and 3), view 2 has no descriptor and gets the row of zeros; the zero-mean
    descriptor is the mean of the four rows, (7/6, 2/3), and the hashed
    description of view 1 is built from its three descriptors. *)
Lemma zero_mean_descriptor_correct_witness :
  Schedule_valid Reference.reversed ∧
  set_iter (used_index {[ (0, 1); (1, 2); (3, 0) ]}) = [0; 1; 2; 3] ∧
  matForZeroMean_of ScalarT_uchar Reference.provider [0; 1; 2; 3] =
    [[Qmake 4 3; Qmake 4 3]; [Qmake 5 3; Qmake 2 3];
     [Qmake 0 1; Qmake 0 1]; [Qmake 5 3; Qmake 2 3]] ∧
  run_zero_mean ScalarT_uchar Reference.provider {[ (0, 1); (1, 2); (3, 0) ]} =
    [Qmake 126 108; Qmake 72 108] ∧
  run_hashed_base ScalarT_uchar Reference.provider Reference.reversed
    {[ (0, 1); (1, 2); (3, 0) ]} !! 1 = Some 3.
Proof.
  split; [exact ReferenceLaws.reversed_valid|].
  split; [by vm_compute|]. split; [by vm_compute|].
  destruct (zero_mean_descriptor_correct ScalarT_uchar Reference.provider
              Reference.reversed {[ (0, 1); (1, 2); (3, 0) ]}
              ReferenceLaws.reversed_valid) as (_ & _ & Hz & Hh & _).
  split.
  - rewrite Hz. by vm_compute.
  - refine (eq_trans (Hh 1 _) _); [|reflexivity].
    vm_compute. apply list_elem_of_further, list_elem_of_here.
Defined.

(** C3 (empty regions).  If [I] or [J] has no descriptor, a run of
    [impl::Match] leaves the entry of [(I, J)] as it was in the container
    passed in (absent, for a container passed empty).  When the first view of
    a group has no descriptor and no cancellation is observed, the group is
    left at once: the progress advances by the number of its pairs, nothing
    else changes, and the loop goes on with the next group. *)
Theorem empty_region_invariance {F : Type} `{!FloatOps F} `{!CascadeHasherOps F}
    `{!MatchFilters F} `{!CascadeHasherLaws F} `{!MatchFiltersLaws F}
    (sT : ScalarT) (regions_provider : Regions_Provider F) (sched : Schedule)
    (fDistRatio : F) (pairs : gset (nat * nat))
    (map_PutativesMatches0 : gmap (nat * nat) IndMatches)
    (my_progress_bar0 : option C_Progress) (I J : nat) :
  Schedule_valid sched →
  RegionCount (get regions_provider I) = 0 ∨
  RegionCount (get regions_provider J) = 0 →
  map_PutativesMatches
    (impl_Match sT regions_provider sched fDistRatio pairs
       map_PutativesMatches0 my_progress_bar0) !! (I, J) =
  map_PutativesMatches0 !! (I, J) ∧
  (RegionCount (get regions_provider I) = 0 →
   ∀ cascade_hasher hashed_base_ indexToCompare rest st,
     hasBeenCanceled (my_progress_bar st) = false →
     match_groups sT regions_provider sched fDistRatio cascade_hasher hashed_base_
       ((I, indexToCompare) :: rest) st =
     match_groups sT regions_provider sched fDistRatio cascade_hasher hashed_base_
       rest (with_bar (advance (length indexToCompare)) (with_bar polled st))).
Proof.
  intros Hvalid Hempty. split.
  - pose proof (impl_Match_progressed sT regions_provider sched fDistRatio pairs
                  map_PutativesMatches0 my_progress_bar0 Hvalid) as Hp.
    rewrite (progressed_stable _ _ _ _ (I, J) Hp); [done|].
    left. by apply group_entry_empty.
  - intros HI cascade_hasher hashed_base_ indexToCompare rest st Hc.
    cbn [match_groups fst snd]. rewrite Hc. by rewrite decide_True.
Qed.

(** On the reference instance view 2 has no descriptor: of the pairs (0,1),
    (0,2) and (2,1) only (0,1) gets an entry, and the progress is 3. *)
Lemma empty_region_invariance_witness :
  Schedule_valid sequential ∧
  RegionCount (get Reference.provider 2) = 0 ∧
  map_PutativesMatches
    (impl_Match ScalarT_uchar Reference.provider sequential (Qmake 4 5)
       {[ (0, 1); (0, 2); (2, 1) ]} ∅ None) !! (2, 1) = None ∧
  map_PutativesMatches
    (impl_Match ScalarT_uchar Reference.provider sequential (Qmake 4 5)
       {[ (0, 1); (0, 2); (2, 1) ]} ∅ None) !! (0, 2) = None ∧
  count (my_progress_bar
    (impl_Match ScalarT_uchar Reference.provider sequential (Qmake 4 5)
       {[ (0, 1); (0, 2); (2, 1) ]} ∅ None)) = 3.
Proof.
  split; [exact ReferenceLaws.sequential_valid|]. split; [reflexivity|].
  split; [|split].
  - exact (proj1 (empty_region_invariance ScalarT_uchar Reference.provider sequential
                    (Qmake 4 5) {[ (0, 1); (0, 2); (2, 1) ]} ∅ None 2 1
                    ReferenceLaws.sequential_valid (or_introl eq_refl))).
  - exact (proj1 (empty_region_invariance ScalarT_uchar Reference.provider sequential
                    (Qmake 4 5) {[ (0, 1); (0, 2); (2, 1) ]} ∅ None 0 2
                    ReferenceLaws.sequential_valid (or_intror eq_refl))).
  - by vm_compute.
Defined.

(** C4 (type mismatch).  If [I] and [J] report different scalar types, a run
    leaves the entry of [(I, J)] as it was in the container passed in.  The
    iteration of the inner loop for [J], when it does not observe a
    cancellation, adds exactly one to the progress count and changes neither
    the container nor the calls of [insert] (it makes one query to the sink
    and leaves the announced total alone).  In a run without cancellation
    the progress counts every pair once, this one included, and every other
    requested pair that had no entry gets its own entry. *)
Theorem type_mismatch_skip {F : Type} `{!FloatOps F} `{!CascadeHasherOps F}
    `{!MatchFilters F}
    (sT : ScalarT) (regions_provider : Regions_Provider F) (sched : Schedule)
    (fDistRatio : F) (pairs : gset (nat * nat))
    (map_PutativesMatches0 : gmap (nat * nat) IndMatches)
    (my_progress_bar0 : option C_Progress) (I J : nat) :
  Schedule_valid sched →
  Type_id (get regions_provider I) ≠ Type_id (get regions_provider J) →
  let final :=
    impl_Match sT regions_provider sched fDistRatio pairs
      map_PutativesMatches0 my_progress_bar0 in
  let entry :=
    group_entry sT regions_provider fDistRatio (run_hasher regions_provider pairs)
      (run_hashed_base sT regions_provider sched pairs) in
  map_PutativesMatches final !! (I, J) = map_PutativesMatches0 !! (I, J) ∧
  (∀ cascade_hasher hashed_base_ st,
     hasBeenCanceled_at (my_progress_bar st) (polls (my_progress_bar st)) = false →
     let st' :=
       match_pair sT regions_provider fDistRatio cascade_hasher hashed_base_ I st J in
     count (my_progress_bar st') = count (my_progress_bar st) + 1 ∧
     map_PutativesMatches st' = map_PutativesMatches st ∧
     insert_calls st' = insert_calls st ∧
     polls (my_progress_bar st') = polls (my_progress_bar st) + 1 ∧
     expected_count (my_progress_bar st') = expected_count (my_progress_bar st) ∧
     hasBeenCanceled_at (my_progress_bar st') = hasBeenCanceled_at (my_progress_bar st)) ∧
  (never_canceled (default C_Progress_dummy my_progress_bar0) →
   count (my_progress_bar final) = size pairs ∧
   ∀ k, k ∈ pairs → k ≠ (I, J) → map_PutativesMatches0 !! k = None →
        map_PutativesMatches final !! k = entry k).
Proof.
  intros Hvalid Htypes final entry. split_and!.
  - pose proof (impl_Match_progressed sT regions_provider sched fDistRatio pairs
                  map_PutativesMatches0 my_progress_bar0 Hvalid) as Hp.
    subst final. rewrite (progressed_stable _ _ _ _ (I, J) Hp); [done|].
    left. by apply group_entry_type_mismatch.
  - intros cascade_hasher hashed_base_ st Hc st'. subst st'.
    unfold match_pair, hasBeenCanceled. rewrite Hc. rewrite decide_True by done.
    simpl. split_and!; try done; lia.
  - intros Hnever.
    destruct (impl_Match_exact sT regions_provider sched fDistRatio pairs
                map_PutativesMatches0 my_progress_bar0 Hvalid Hnever) as [Hmap Hcount].
    split; [exact Hcount|].
    intros k Hk _ Hnone.
    subst final. rewrite Hmap. unfold merged. rewrite Hnone.
    rewrite decide_True; [done|]. by apply elem_of_Pair_Set_iter.
Qed.

(** On the reference instance view 3 has another scalar type than view 0.
    The iteration for the pair (0,3), from a fresh state, counts one unit and
    inserts nothing; in the run over (0,1) and (0,3) the pair (0,3) gets no
    entry, its sibling (0,1) does, and the progress is 2. *)
Lemma type_mismatch_skip_witness :
  Schedule_valid sequential ∧
  Type_id (get Reference.provider 0) ≠ Type_id (get Reference.provider 3) ∧
  count (my_progress_bar
    (match_pair ScalarT_uchar Reference.provider (Qmake 4 5) Reference.hasher0 ∅
       0 (mkState ∅ C_Progress_dummy []) 3)) = 1 ∧
  insert_calls
    (match_pair ScalarT_uchar Reference.provider (Qmake 4 5) Reference.hasher0 ∅
       0 (mkState ∅ C_Progress_dummy []) 3) = [] ∧
  map_PutativesMatches
    (impl_Match ScalarT_uchar Reference.provider sequential (Qmake 4 5)
       {[ (0, 1); (0, 3) ]} ∅ None) !! (0, 3) = None ∧
  count (my_progress_bar
    (impl_Match ScalarT_uchar Reference.provider sequential (Qmake 4 5)
       {[ (0, 1); (0, 3) ]} ∅ None)) = 2 ∧
  map_PutativesMatches
    (impl_Match ScalarT_uchar Reference.provider sequential (Qmake 4 5)
       {[ (0, 1); (0, 3) ]} ∅ None) !! (0, 1) =
  Some [mkIndMatch 0 0; mkIndMatch 1 2].
Proof.
  assert (Type_id (get Reference.provider 0) ≠ Type_id (get Reference.provider 3))
    as Hne by discriminate.
  split; [exact ReferenceLaws.sequential_valid|]. split; [exact Hne|].
  destruct (type_mismatch_skip ScalarT_uchar Reference.provider sequential
              (Qmake 4 5) {[ (0, 1); (0, 3) ]} ∅ None 0 3
              ReferenceLaws.sequential_valid Hne) as (Hskip & Hbody & Hrun).
  destruct (Hbody Reference.hasher0 ∅ (mkState ∅ C_Progress_dummy []) eq_refl)
    as (Hcount & _ & Hcalls & _).
  destruct (Hrun (λ _, eq_refl)) as [Htotal Hsiblings].
  split; [exact Hcount|]. split; [exact Hcalls|]. split; [exact Hskip|].
  split.
  - rewrite Htotal. by vm_compute.
  - rewrite (Hsiblings (0, 1)); [by vm_compute| |done|done].
    apply elem_of_union. left. by apply elem_of_singleton.
Defined.

(** C5 (output keys).  For a run of [impl::Match]: an entry of the resulting
    container either was in the container passed in, or belongs to a pair of
    the input set, in the orientation of that pair, and is the non-empty
    match list computed for it; the entries passed in are kept as they were;
    [insert] is called at most once per key, only for pairs of the input set
    and only with a non-empty list; one iteration of the inner loop adds zero
    or one to the progress, the whole run at most the number of pairs, and
    exactly that number when no cancellation is reported. *)
Theorem output_key_discipline {F : Type} `{!FloatOps F} `{!CascadeHasherOps F}
    `{!MatchFilters F}
    (sT : ScalarT) (regions_provider : Regions_Provider F) (sched : Schedule)
    (fDistRatio : F) (pairs : gset (nat * nat))
    (map_PutativesMatches0 : gmap (nat * nat) IndMatches)
    (my_progress_bar0 : option C_Progress) :
  Schedule_valid sched →
  let final :=
    impl_Match sT regions_provider sched fDistRatio pairs
      map_PutativesMatches0 my_progress_bar0 in
  let matches_of (k : nat * nat) :=
    pair_matches sT regions_provider fDistRatio (run_hasher regions_provider pairs)
      (run_hashed_base sT regions_provider sched pairs) k.1 k.2 in
  (∀ k v, map_PutativesMatches final !! k = Some v →
          map_PutativesMatches0 !! k = Some v ∨
          (map_PutativesMatches0 !! k = None ∧ k ∈ pairs ∧
           v = matches_of k ∧ v ≠ [])) ∧
  (∀ k v, map_PutativesMatches0 !! k = Some v →
          map_PutativesMatches final !! k = Some v) ∧
  NoDup (insert_calls final) ∧
  (∀ k, k ∈ insert_calls final → k ∈ pairs ∧ matches_of k ≠ []) ∧
  (∀ cascade_hasher hashed_base_ I J st,
     let st' :=
       match_pair sT regions_provider fDistRatio cascade_hasher hashed_base_ I st J in
     count (my_progress_bar st') = count (my_progress_bar st) ∨
     count (my_progress_bar st') = count (my_progress_bar st) + 1) ∧
  count (my_progress_bar final) ≤ size pairs ∧
  (never_canceled (default C_Progress_dummy my_progress_bar0) →
   count (my_progress_bar final) = size pairs).
Proof.
  intros Hvalid final matches_of.
  pose proof (impl_Match_progressed sT regions_provider sched fDistRatio pairs
                map_PutativesMatches0 my_progress_bar0 Hvalid) as Hp.
  destruct Hp as [_ _ _ Hcount Hkeep Hnew (l & Hl & Hsub & Hsome)].
  simpl in *. rewrite app_nil_r in Hl. split_and!.
  - intros k v Hv. destruct (Hnew k v Hv) as [?|(Hnone & Hin & Hent)]; [by left|].
    right. apply group_entry_Some in Hent as (-> & Hne & _ & _).
    split_and!; [done|by apply elem_of_Pair_Set_iter|done|done].
  - exact Hkeep.
  - fold final in Hl. rewrite Hl.
    eapply submseteq_NoDup; [exact Hsub|apply NoDup_Pair_Set_iter].
  - intros k Hk. fold final in Hl. rewrite Hl in Hk. split.
    + apply elem_of_Pair_Set_iter. eapply elem_of_submseteq; eauto.
    + destruct (Hsome k Hk) as [v Hv].
      apply group_entry_Some in Hv as (Hv & Hne & _ & _).
      subst matches_of. simpl. by rewrite <- Hv.
  - intros cascade_hasher hashed_base_ I J st.
    destruct (match_pair_cases sT regions_provider fDistRatio cascade_hasher
                hashed_base_ I J st) as [-> | ->]; simpl.
    + by left.
    + right. by rewrite offer_bar.
  - rewrite length_Pair_Set_iter in Hcount. fold final in Hcount. lia.
  - intros Hnever.
    by destruct (impl_Match_exact sT regions_provider sched fDistRatio pairs
                   map_PutativesMatches0 my_progress_bar0 Hvalid Hnever) as [_ ?].
Qed.

(** A run of the reference instance over five pairs: three calls of
    [insert], all for requested pairs. *)
Lemma output_key_discipline_witness :
  Schedule_valid Reference.reversed ∧
  NoDup (insert_calls
    (impl_Match ScalarT_uchar Reference.provider Reference.reversed (Qmake 4 5)
       {[ (0, 1); (1, 0); (0, 2); (0, 3); (4, 5) ]} ∅ None)) ∧
  insert_calls
    (impl_Match ScalarT_uchar Reference.provider Reference.reversed (Qmake 4 5)
       {[ (0, 1); (1, 0); (0, 2); (0, 3); (4, 5) ]} ∅ None) =
  [(4, 5); (1, 0); (0, 1)].
Proof.
  split; [exact ReferenceLaws.reversed_valid|].
  destruct (output_key_discipline ScalarT_uchar Reference.provider Reference.reversed
              (Qmake 4 5) {[ (0, 1); (1, 0); (0, 2); (0, 3); (4, 5) ]} ∅ None
              ReferenceLaws.reversed_valid) as (_ & _ & Hnodup & _).
  split; [exact Hnodup|by vm_compute].
Defined.

(** C7 (determinism of content).  Two runs of [impl::Match] on the same
    provider, pair set, ratio and container, neither of which is cancelled,
    end with the same container and the same progress, whatever the order in
    which the iterations of the two parallel loops are run. *)
Theorem determinism_of_content {F : Type} `{!FloatOps F} `{!CascadeHasherOps F}
    `{!MatchFilters F}
    (sT : ScalarT) (regions_provider : Regions_Provider F) (sched1 sched2 : Schedule)
    (fDistRatio : F) (pairs : gset (nat * nat))
    (map_PutativesMatches0 : gmap (nat * nat) IndMatches)
    (my_progress_bar0 : option C_Progress) :
  Schedule_valid sched1 → Schedule_valid sched2 →
  never_canceled (default C_Progress_dummy my_progress_bar0) →
  map_PutativesMatches
    (impl_Match sT regions_provider sched1 fDistRatio pairs
       map_PutativesMatches0 my_progress_bar0) =
  map_PutativesMatches
    (impl_Match sT regions_provider sched2 fDistRatio pairs
       map_PutativesMatches0 my_progress_bar0) ∧
  count (my_progress_bar
    (impl_Match sT regions_provider sched1 fDistRatio pairs
       map_PutativesMatches0 my_progress_bar0)) =
  count (my_progress_bar
    (impl_Match sT regions_provider sched2 fDistRatio pairs
       map_PutativesMatches0 my_progress_bar0)).
Proof.
  intros Hvalid1 Hvalid2 Hnever.
  destruct (impl_Match_exact sT regions_provider sched1 fDistRatio pairs
              map_PutativesMatches0 my_progress_bar0 Hvalid1 Hnever) as [Hmap1 Hc1].
  destruct (impl_Match_exact sT regions_provider sched2 fDistRatio pairs
              map_PutativesMatches0 my_progress_bar0 Hvalid2 Hnever) as [Hmap2 Hc2].
  split; [|congruence].
  apply map_eq. intros k. rewrite Hmap1, Hmap2.
  unfold run_hashed_base.
  by rewrite (hashed_base_of_schedule sT regions_provider sched1 sched2).
Qed.

(** The reference instance run in index order and in reverse order. *)
Lemma determinism_of_content_witness :
  Schedule_valid sequential ∧ Schedule_valid Reference.reversed ∧
  never_canceled C_Progress_dummy ∧
  map_PutativesMatches
    (impl_Match ScalarT_uchar Reference.provider sequential (Qmake 4 5)
       {[ (0, 1); (1, 0); (0, 2); (0, 3); (4, 5) ]} ∅ None) =
  map_PutativesMatches
    (impl_Match ScalarT_uchar Reference.provider Reference.reversed (Qmake 4 5)
       {[ (0, 1); (1, 0); (0, 2); (0, 3); (4, 5) ]} ∅ None).
Proof.
  split; [exact ReferenceLaws.sequential_valid|].
  split; [exact ReferenceLaws.reversed_valid|].
  split; [exact (λ _, eq_refl)|].
  exact (proj1 (determinism_of_content ScalarT_uchar Reference.provider sequential
                  Reference.reversed (Qmake 4 5)
                  {[ (0, 1); (1, 0); (0, 2); (0, 3); (4, 5) ]} ∅ None
                  ReferenceLaws.sequential_valid ReferenceLaws.reversed_valid
                  (λ _, eq_refl))).
Defined.

(** C8 (cancellation), as amended.  Take a run of the matching loops and a
    point of it reached without any report of cancellation: either the head
    of a group (after the groups [gs1]) or the head of an iteration of the
    inner loop (after [gs1] and the iterations [js1] of the group of [I]).
    If the query made at the head of a group reports the cancellation, the
    run ends with the container, the calls of [insert] and the progress of
    this point.  If the query made at the head of an inner iteration reports
    it, the same holds provided the sink keeps reporting a cancellation once
    it has reported it: the remaining iterations of the group ask the sink
    again.  In both cases nothing is inserted afterwards and what was
    inserted before is returned unchanged.  Whatever the sink reports, a
    matching that runs sends nothing to [std::cerr]. *)
Theorem cancellation_halts {F : Type} `{!FloatOps F} `{!CascadeHasherOps F}
    `{!MatchFilters F} `{!TypeInfo}
    (sT : ScalarT) (regions_provider : Regions_Provider F) (sched : Schedule)
    (fDistRatio : F) (cascade_hasher : CascadeHasher)
    (hashed_base_ : gmap nat HashedDescriptions)
    (gs1 gs2 : list (nat * list nat)) (I : nat) (js js1 js2 : list nat)
    (st0 : MatchState) :
  let run := match_groups sT regions_provider sched fDistRatio cascade_hasher
               hashed_base_ in
  let body := match_pair sT regions_provider fDistRatio cascade_hasher
                hashed_base_ I in
  (let st := run gs1 st0 in
   quiet_so_far st →
   hasBeenCanceled (my_progress_bar st) = true →
   same_results (run (gs1 ++ gs2) st0) st) ∧
  (let st := foldl body (with_bar polled (run gs1 st0)) js1 in
   sticky (my_progress_bar st0) →
   RegionCount (get regions_provider I) ≠ 0 →
   visited sched I js = js1 ++ js2 →
   quiet_so_far st →
   hasBeenCanceled (my_progress_bar st) = true →
   same_results (run (gs1 ++ (I, js) :: gs2) st0) st) ∧
  (∀ this provider pairs map_PutativesMatches0 my_progress_bar0,
     IsBinary provider = false →
     provider_Type_id provider = typeid_name ScalarT_uchar ∨
     provider_Type_id provider = typeid_name ScalarT_float →
     out_cerr (Cascade_Hashing_Matcher_Regions_Match this sched (Some provider)
                 pairs map_PutativesMatches0 my_progress_bar0) = []).
Proof.
  intros run body.
  assert (∀ gs st, hasBeenCanceled_at (my_progress_bar (run gs st)) =
                   hasBeenCanceled_at (my_progress_bar st) ∧
                   polls (my_progress_bar st) ≤ polls (my_progress_bar (run gs st)))
    as Hrun.
  { induction gs as [|[I' js'] gs IH]; intros st; [done|].
    subst run. cbn [match_groups fst snd].
    destruct (hasBeenCanceled (my_progress_bar st)); [simpl; split; [done|lia]|].
    case_decide.
    - destruct (IH (with_bar (advance (length js')) (with_bar polled st))) as [-> Hle].
      simpl in *. split; [done|lia].
    - unfold match_group.
      match goal with |- context [foldl ?f ?s ?l] =>
        pose proof (progressed_foldl sT regions_provider fDistRatio cascade_hasher
                      hashed_base_ I' l s) as Hp;
        destruct (IH (foldl f s l)) as [-> Hle] end.
      rewrite (prog_oracle _ _ _ _ Hp).
      pose proof (prog_polls _ _ _ _ Hp) as Hle'. simpl in *. split; [done|lia]. }
  split_and!.
  - intros st Hquiet Hc. destruct (Hrun gs1 st0) as [Horacle Hpolls]. fold st in Horacle.
    subst run. rewrite match_groups_app.
    + fold st.
      destruct (match_groups_canceled sT regions_provider sched fDistRatio
                  cascade_hasher hashed_base_ gs2 st Hc) as [-> | ->]; done.
    + intros t Ht. rewrite <- Horacle. by apply Hquiet.
  - intros st Hsticky Hcount Hvisited Hquiet Hc.
    destruct (Hrun gs1 st0) as [Horacle1 Hpolls1].
    pose proof (progressed_foldl sT regions_provider fDistRatio cascade_hasher
                  hashed_base_ I js1 (with_bar polled (run gs1 st0))) as Hp.
    fold body in Hp. fold st in Hp.
    pose proof (prog_oracle _ _ _ _ Hp) as Horacle. simpl in Horacle.
    pose proof (prog_polls _ _ _ _ Hp) as Hpolls. simpl in Hpolls.
    subst run. rewrite match_groups_app.
    + cbn [match_groups fst snd].
      assert (hasBeenCanceled
                (my_progress_bar
                   (match_groups sT regions_provider sched fDistRatio cascade_hasher
                      hashed_base_ gs1 st0)) = false) as ->.
      { unfold hasBeenCanceled. rewrite <- Horacle. apply Hquiet. lia. }
      rewrite decide_False by done.
      unfold match_group. fold (visited sched I js). rewrite Hvisited, foldl_app.
      fold body. fold st.
      apply (rest_canceled sT regions_provider sched fDistRatio cascade_hasher
               hashed_base_ I js2 gs2 st); [|done].
      unfold sticky. rewrite Horacle, Horacle1. exact Hsticky.
    + intros t Ht. rewrite <- Horacle1, <- Horacle. apply Hquiet. lia.
  - intros this provider pairs map_PutativesMatches0 my_progress_bar0 Hbinary Htype.
    unfold Cascade_Hashing_Matcher_Regions_Match. rewrite Hbinary.
    destruct Htype as [Htype|Htype]; repeat case_decide; done.
Qed.

Lemma cancel_from_sticky (n c e p : nat) :
  sticky (mkProgress (λ t, bool_decide (n ≤ t)) p c e).
Proof.
  intros t t' Hle. simpl. rewrite !bool_decide_eq_true. lia.
Qed.

(** The reference instance with the groups of the pairs (0,1) and (1,0).
    With a cancellation reported from the third query on, that is at the head
    of the second group, the run ends with the state reached after the first
    group, which holds the entry of (0,1) only.  With a cancellation reported
    from the second query on, that is at the head of the first iteration of
    the inner loop, nothing is inserted at all. *)
Lemma cancellation_halts_witness :
  sticky (my_progress_bar Reference.start_canceled_at_1) ∧
  quiet_so_far (Reference.run_groups [(0, [1])] Reference.start_canceled_at_2) ∧
  hasBeenCanceled
    (my_progress_bar
       (Reference.run_groups [(0, [1])] Reference.start_canceled_at_2)) = true ∧
  same_results
    (Reference.run_groups ([(0, [1])] ++ [(1, [0])]) Reference.start_canceled_at_2)
    (Reference.run_groups [(0, [1])] Reference.start_canceled_at_2) ∧
  insert_calls
    (Reference.run_groups ([(0, [1])] ++ [(1, [0])]) Reference.start_canceled_at_2) =
  [(0, 1)] ∧
  same_results
    (Reference.run_groups ([] ++ (0, [1]) :: [(1, [0])]) Reference.start_canceled_at_1)
    (with_bar polled Reference.start_canceled_at_1).
Proof.
  assert (sticky (my_progress_bar Reference.start_canceled_at_1)) as Hsticky
    by apply cancel_from_sticky.
  assert (quiet_so_far
            (Reference.run_groups [(0, [1])] Reference.start_canceled_at_2)) as Hquiet.
  { intros t Ht. vm_compute in Ht.
    destruct t as [|[|t]]; [reflexivity|reflexivity|lia]. }
  assert (hasBeenCanceled
            (my_progress_bar
               (Reference.run_groups [(0, [1])] Reference.start_canceled_at_2)) = true)
    as Hc by reflexivity.
  split; [exact Hsticky|]. split; [exact Hquiet|]. split; [exact Hc|].
  split; [|split; [reflexivity|]].
  - exact (proj1 (cancellation_halts ScalarT_uchar Reference.provider sequential
                    (Qmake 4 5) Reference.hasher0 ∅ [(0, [1])] [(1, [0])] 0 [] [] []
                    Reference.start_canceled_at_2) Hquiet Hc).
  - refine (proj1 (proj2 (cancellation_halts ScalarT_uchar Reference.provider
                            sequential (Qmake 4 5) Reference.hasher0 ∅
                            [] [(1, [0])] 0 [1] [] [1]
                            Reference.start_canceled_at_1)) _ _ _ _ _).
    + exact Hsticky.
    + discriminate.
    + reflexivity.
    + intros t Ht. vm_compute in Ht. destruct t as [|t]; [reflexivity|lia].
    + reflexivity.
Defined.

(** The claim without the proviso fails.  On the reference instance with
    the pairs (0,1), (0,4) and (1,0) and a sink that reports cancellation at
    its second query only: the query at the head of the iteration for (0,1),
    reached without any report, observes the cancellation, and nothing has
    been inserted so far; the iterations for (0,4) and (1,0), which begin
    afterwards, both insert an entry. *)
Lemma cancellation_withdrawn_counterexample :
  quiet_so_far (with_bar polled Reference.start_canceled_once_at_1) ∧
  hasBeenCanceled
    (my_progress_bar (with_bar polled Reference.start_canceled_once_at_1)) = true ∧
  insert_calls (with_bar polled Reference.start_canceled_once_at_1) = [] ∧
  insert_calls
    (Reference.run_groups [(0, [1; 4]); (1, [0])]
       Reference.start_canceled_once_at_1) = [(1, 0); (0, 4)] ∧
  insert_calls
    (impl_Match ScalarT_uchar Reference.provider sequential (Qmake 4 5)
       {[ (0, 1); (0, 4); (1, 0) ]} ∅ (Some (Reference.cancel_once 1))) =
    [(1, 0); (0, 4)] ∧
  map_PutativesMatches
    (impl_Match ScalarT_uchar Reference.provider sequential (Qmake 4 5)
       {[ (0, 1); (0, 4); (1, 0) ]} ∅ (Some (Reference.cancel_once 1))) !! (0, 1) =
    None ∧
  map_PutativesMatches
    (impl_Match ScalarT_uchar Reference.provider sequential (Qmake 4 5)
       {[ (0, 1); (0, 4); (1, 0) ]} ∅ (Some (Reference.cancel_once 1))) !! (0, 4) =
    Some [mkIndMatch 0 0; mkIndMatch 1 1; mkIndMatch 2 2] ∧
  map_PutativesMatches
    (impl_Match ScalarT_uchar Reference.provider sequential (Qmake 4 5)
       {[ (0, 1); (0, 4); (1, 0) ]} ∅ (Some (Reference.cancel_once 1))) !! (1, 0) =
    Some [mkIndMatch 0 0; mkIndMatch 2 1; mkIndMatch 1 2] ∧
  ¬ same_results
      (Reference.run_groups [(0, [1; 4]); (1, [0])]
         Reference.start_canceled_once_at_1)
      (with_bar polled Reference.start_canceled_once_at_1).
Proof.
  split_and!; try (by vm_compute).
  - intros t Ht. vm_compute in Ht. destruct t as [|t]; [reflexivity|lia].
  - intros (_ & Hcalls & _). vm_compute in Hcalls. discriminate.
Qed.

(** C2 (index order).  In the matching of a pair [(I, J)] the engine is
    queried with the descriptors of [J] against the base of [I], so a
    candidate record holds a row of [J] in [i_] and a row of [I] in [j_].
    The record emitted for a group accepted by the ratio test holds the [j_]
    of its nearest candidate first and its [i_] second; every match stored
    for [(I, J)] by a run is such a record, so its first component is a
    descriptor index of [I] and its second one a descriptor index of [J]. *)
Theorem index_order_swap {F : Type} `{!FloatOps F} `{!CascadeHasherOps F}
    `{!MatchFilters F} `{!CascadeHasherLaws F} `{!MatchFiltersLaws F}
    (sT : ScalarT) (regions_provider : Regions_Provider F) (sched : Schedule)
    (fDistRatio : F) (pairs : gset (nat * nat))
    (map_PutativesMatches0 : gmap (nat * nat) IndMatches)
    (my_progress_bar0 : option C_Progress)
    (I J : nat) (matches : IndMatches) (m : IndMatch) :
  Schedule_valid sched →
  map_PutativesMatches0 !! (I, J) = None →
  map_PutativesMatches
    (impl_Match sT regions_provider sched fDistRatio pairs
       map_PutativesMatches0 my_progress_bar0) !! (I, J) = Some matches →
  m ∈ matches →
  let cascade_hasher := run_hasher regions_provider pairs in
  let hashed_base_ := run_hashed_base sT regions_provider sched pairs in
  let pvec_indices :=
    (pair_candidates sT regions_provider cascade_hasher hashed_base_ I J).1 in
  let accepted :=
    nn_ratio_indexes sT regions_provider fDistRatio cascade_hasher hashed_base_ I J in
  ratio_matches sT regions_provider fDistRatio cascade_hasher hashed_base_ I J =
    (λ index, mkIndMatch (j_ (pvec_indices !!! (index * 2)))
                         (i_ (pvec_indices !!! (index * 2)))) <$> accepted ∧
  (∃ index, index ∈ accepted ∧ index * 2 < length pvec_indices ∧
            i_ m = j_ (pvec_indices !!! (index * 2)) ∧
            j_ m = i_ (pvec_indices !!! (index * 2))) ∧
  i_ m < RegionCount (get regions_provider I) ∧
  j_ m < RegionCount (get regions_provider J).
Proof.
  intros Hvalid Hnone Hfinal Hm cascade_hasher hashed_base_ pvec_indices accepted.
  pose proof (impl_Match_progressed sT regions_provider sched fDistRatio pairs
                map_PutativesMatches0 my_progress_bar0 Hvalid) as Hp.
  destruct (prog_new _ _ _ _ Hp _ _ Hfinal) as [Hold|(_ & _ & Hent)].
  { simpl in Hold. congruence. }
  apply group_entry_Some in Hent as (-> & _ & _ & _). simpl in Hm.
  split_and!.
  - done.
  - destruct (elem_of_pair_matches sT regions_provider fDistRatio _ _ I J m Hm)
      as (index & Hin & Hlt & ->).
    exists index. split_and!; [exact Hin|exact Hlt|reflexivity|reflexivity].
  - by destruct (pair_matches_in_range sT regions_provider fDistRatio _ _ I J m Hm).
  - by destruct (pair_matches_in_range sT regions_provider fDistRatio _ _ I J m Hm).
Qed.

(** On the reference instance row 2 of view 1 is nearest to row 1 of view 0:
    the candidate record is (2, 1), the stored match is (1, 2). *)
Lemma index_order_swap_witness :
  Schedule_valid sequential ∧
  map_PutativesMatches
    (impl_Match ScalarT_uchar Reference.provider sequential (Qmake 4 5)
       {[ (0, 1) ]} ∅ None) !! (0, 1) = Some [mkIndMatch 0 0; mkIndMatch 1 2] ∧
  (pair_candidates ScalarT_uchar Reference.provider
     (run_hasher Reference.provider {[ (0, 1) ]})
     (run_hashed_base ScalarT_uchar Reference.provider sequential {[ (0, 1) ]})
     0 1).1 !! 4 = Some (mkIndMatch 2 1) ∧
  i_ (mkIndMatch 1 2) < RegionCount (get Reference.provider 0) ∧
  j_ (mkIndMatch 1 2) < RegionCount (get Reference.provider 1).
Proof.
  split; [exact ReferenceLaws.sequential_valid|].
  split; [reflexivity|]. split; [reflexivity|].
  refine (proj2 (proj2 (index_order_swap ScalarT_uchar Reference.provider sequential
                          (Qmake 4 5) {[ (0, 1) ]} ∅ None 0 1
                          [mkIndMatch 0 0; mkIndMatch 1 2] (mkIndMatch 1 2)
                          ReferenceLaws.sequential_valid _ _ _))).
  - reflexivity.
  - reflexivity.
  - apply list_elem_of_further, list_elem_of_here.
Defined.

(** C10 (one match per query).  In the list stored for [(I, J)] by a run no
    two matches have the same second component, and a match whose second
    component is the query row of a group of candidates has the base row of
    the first (nearest) record of that group as its first component. *)
Theorem one_match_per_query {F : Type} `{!FloatOps F} `{!CascadeHasherOps F}
    `{!MatchFilters F} `{!CascadeHasherLaws F} `{!MatchFiltersLaws F}
    (sT : ScalarT) (regions_provider : Regions_Provider F) (sched : Schedule)
    (fDistRatio : F) (pairs : gset (nat * nat))
    (map_PutativesMatches0 : gmap (nat * nat) IndMatches)
    (my_progress_bar0 : option C_Progress)
    (I J : nat) (matches : IndMatches) :
  Schedule_valid sched →
  map_PutativesMatches0 !! (I, J) = None →
  map_PutativesMatches
    (impl_Match sT regions_provider sched fDistRatio pairs
       map_PutativesMatches0 my_progress_bar0) !! (I, J) = Some matches →
  let pvec_indices :=
    (pair_candidates sT regions_provider (run_hasher regions_provider pairs)
       (run_hashed_base sT regions_provider sched pairs) I J).1 in
  NoDup (j_ <$> matches) ∧
  (∀ m g, m ∈ matches → g * 2 < length pvec_indices →
          i_ (pvec_indices !!! (g * 2)) = j_ m →
          i_ m = j_ (pvec_indices !!! (g * 2))).
Proof.
  intros Hvalid Hnone Hfinal pvec_indices.
  pose proof (impl_Match_progressed sT regions_provider sched fDistRatio pairs
                map_PutativesMatches0 my_progress_bar0 Hvalid) as Hp.
  destruct (prog_new _ _ _ _ Hp _ _ Hfinal) as [Hold|(_ & _ & Hent)].
  { simpl in Hold. congruence. }
  apply group_entry_Some in Hent as (-> & _ & _ & _). simpl. split.
  - apply NoDup_pair_matches_queries; apply _.
  - intros m g Hm Hg Hquery.
    destruct (elem_of_pair_matches sT regions_provider fDistRatio _ _ I J m Hm)
      as (index & Hin & Hlt & ->). simpl in *.
    assert (g = index) as ->; [|done].
    eapply (knn_one_group _ _ _ (pair_candidates_contract sT regions_provider _ _ I J));
      done.
Qed.

(** The list stored for (0,1) on the reference instance pairs the queries 0
    and 2, each once. *)
Lemma one_match_per_query_witness :
  Schedule_valid sequential ∧
  map_PutativesMatches
    (impl_Match ScalarT_uchar Reference.provider sequential (Qmake 4 5)
       {[ (0, 1) ]} ∅ None) !! (0, 1) = Some [mkIndMatch 0 0; mkIndMatch 1 2] ∧
  NoDup (j_ <$> [mkIndMatch 0 0; mkIndMatch 1 2]).
Proof.
  split; [exact ReferenceLaws.sequential_valid|]. split; [reflexivity|].
  refine (proj1 (one_match_per_query ScalarT_uchar Reference.provider sequential
                   (Qmake 4 5) {[ (0, 1) ]} ∅ None 0 1
                   [mkIndMatch 0 0; mkIndMatch 1 2]
                   ReferenceLaws.sequential_valid _ _)); reflexivity.
Defined.


(** * Further properties of the code *)

(** ** The order in which the pairs are visited (lines 52-61, 129-155) *)

Lemma StronglySorted_group (l : list (nat * nat)) (I : nat) :
  StronglySorted pair_le l →
  StronglySorted (≤) (filter (λ p, p.1 = I) l).*2.
Proof.
  induction 1 as [|x l Hs IH Hall]; [constructor|].
  rewrite filter_cons. destruct (decide (x.1 = I)) as [Hx|Hx]; [|done].
  rewrite fmap_cons. constructor; [done|].
  rewrite Forall_forall in Hall. apply Forall_forall.
  intros j (y & -> & [Hy Hin]%list_elem_of_filter)%list_elem_of_fmap.
  specialize (Hall y Hin). unfold pair_le in Hall. lia.
Qed.

Lemma StronglySorted_tasks (js_of : nat → list nat) (ks : list nat) :
  StronglySorted (<) ks →
  (∀ k, StronglySorted (≤) (js_of k)) →
  StronglySorted pair_le (tasks ((λ k, (k, js_of k)) <$> ks)).
Proof.
  intros Hks Hjs. induction Hks as [|k ks Hs IH Hall]; [constructor|].
  rewrite fmap_cons, tasks_cons. apply StronglySorted_app. split_and!.
  - intros [I1 J1] [I2 J2] (J & [= -> ->] & _)%list_elem_of_fmap
      (js & (k' & [= -> ->] & Hk')%list_elem_of_fmap & _)%elem_of_tasks.
    rewrite Forall_forall in Hall. specialize (Hall _ Hk').
    left. simpl. lia.
  - eapply StronglySorted_fmap; [|apply Hjs].
    intros J1 J2 HJ. right. simpl. done.
  - exact IH.
Qed.

(** X1.  The groups are visited by increasing first view and, without
    OpenMP, their second views in increasing order: the pairs are matched in
    the order of the pair set itself, each exactly once. *)
Theorem grouped_order (pairs : gset (nat * nat)) :
  tasks (map_iter (map_Pairs pairs)) = Pair_Set_iter pairs.
Proof.
  apply (StronglySorted_unique pair_le).
  - unfold map_iter. apply StronglySorted_tasks; [apply set_iter_increasing|].
    intros k. rewrite map_Pairs_lookup. apply StronglySorted_group.
    apply StronglySorted_merge_sort; apply _.
  - apply StronglySorted_merge_sort; apply _.
  - apply tasks_map_Pairs_Permutation.
Qed.

(** ** The hashed descriptions (lines 66-73, 108-126, 175-178) *)

Lemma run_hashed_base_lookup {F : Type} `{!FloatOps F} `{!CascadeHasherOps F}
    (sT : ScalarT) (regions_provider : Regions_Provider F) (sched : Schedule)
    (pairs : gset (nat * nat)) (I : nat) :
  Schedule_valid sched →
  run_hashed_base sT regions_provider sched pairs !! I =
  if decide (I ∈ used_index pairs)
  then Some (hashed_of sT regions_provider (run_hasher regions_provider pairs)
               (run_zero_mean sT regions_provider pairs) I)
  else None.
Proof.
  intros Hvalid. unfold run_hashed_base.
  rewrite hashed_base_of_lookup by done.
  destruct (decide (I ∈ used_index pairs)) as [Hin|Hin].
  - rewrite decide_True; [done|]. by apply elem_of_set_iter.
  - rewrite decide_False; [done|]. by rewrite elem_of_set_iter.
Qed.

(** X2.  After the indexing loop [hashed_base_] has an entry for exactly the
    views named by some pair, so [hashed_base_[J]] and [hashed_base_[I]] in
    the matching loop never create an entry: for a requested pair the engine
    is queried with the description built from the descriptors of [J] (and
    the view of them that has the descriptor length of [I]) against the
    description built from the descriptors of [I]. *)
Theorem hashed_base_complete {F : Type} `{!FloatOps F} `{!CascadeHasherOps F}
    (sT : ScalarT) (regions_provider : Regions_Provider F) (sched : Schedule)
    (pairs : gset (nat * nat)) :
  Schedule_valid sched →
  let cascade_hasher := run_hasher regions_provider pairs in
  let zero_mean_descriptor := run_zero_mean sT regions_provider pairs in
  let hashed_base_ := run_hashed_base sT regions_provider sched pairs in
  dom hashed_base_ = used_index pairs ∧
  ∀ I J, (I, J) ∈ pairs →
    pair_candidates sT regions_provider cascade_hasher hashed_base_ I J =
    Match_HashedDescriptions cascade_hasher sT
      (hashed_of sT regions_provider cascade_hasher zero_mean_descriptor J)
      (mat_of (get regions_provider J) (DescriptorLength (get regions_provider I)))
      (hashed_of sT regions_provider cascade_hasher zero_mean_descriptor I)
      (mat_of (get regions_provider I) (DescriptorLength (get regions_provider I))).
Proof.
  intros Hvalid cascade_hasher zero_mean_descriptor hashed_base_. split.
  - apply set_eq. intros I. rewrite elem_of_dom. subst hashed_base_.
    rewrite run_hashed_base_lookup by done.
    case_decide; split; done.
  - intros I J Hin. unfold pair_candidates, hashed_at. subst hashed_base_.
    rewrite !run_hashed_base_lookup by done.
    rewrite !decide_True; [done| |].
    + apply elem_of_used_index. exists (I, J). auto.
    + apply elem_of_used_index. exists (I, J). auto.
Qed.

(** On the reference instance with the pairs (0,1) and (4,1). *)
Lemma hashed_base_complete_witness :
  Schedule_valid Reference.reversed ∧
  dom (run_hashed_base ScalarT_uchar Reference.provider Reference.reversed
         {[ (0, 1); (4, 1) ]}) = {[ 0; 1; 4 ]}.
Proof.
  split; [exact ReferenceLaws.reversed_valid|].
  rewrite (proj1 (hashed_base_complete ScalarT_uchar Reference.provider
                    Reference.reversed {[ (0, 1); (4, 1) ]}
                    ReferenceLaws.reversed_valid)).
  by vm_compute.
Defined.

(** X3.  With an empty pair set [impl::Match] restarts the progress sink
    with a total of zero and returns: the hasher is not initialised, the sink
    is not asked for cancellation, [insert] is not called and the container
    is the one passed in. *)
Theorem empty_pair_set {F : Type} `{!FloatOps F} `{!CascadeHasherOps F}
    `{!MatchFilters F}
    (sT : ScalarT) (regions_provider : Regions_Provider F) (sched : Schedule)
    (fDistRatio : F) (map_PutativesMatches0 : gmap (nat * nat) IndMatches)
    (my_progress_bar0 : option C_Progress) :
  impl_Match sT regions_provider sched fDistRatio ∅
    map_PutativesMatches0 my_progress_bar0 =
  mkState map_PutativesMatches0
    (restart 0 (default C_Progress_dummy my_progress_bar0)) [] ∧
  run_hasher regions_provider ∅ = CascadeHasher_new ∧
  run_zero_mean sT regions_provider ∅ = GetZeroMeanDescriptor_f [].
Proof.
  assert (Pair_Set_iter ∅ = []) as Hiter.
  { unfold Pair_Set_iter. by rewrite elements_empty. }
  assert (group_pairs ∅ = (∅, ∅)) as Hgroup.
  { unfold group_pairs. by rewrite Hiter. }
  assert (set_iter ∅ = []) as Hset.
  { unfold set_iter. by rewrite elements_empty. }
  split_and!.
  - rewrite impl_Match_unfold, size_empty. unfold map_Pairs, map_iter.
    rewrite Hgroup. cbn [fst].
    assert (set_iter (dom (∅ : gmap nat (list nat))) = []) as ->; [|done].
    unfold set_iter. by rewrite dom_empty_L, elements_empty.
  - unfold run_hasher, used_index. rewrite Hgroup. cbn [snd]. by rewrite Hset.
  - unfold run_zero_mean, used_index. rewrite Hgroup. cbn [snd]. by rewrite Hset.
Qed.

(** X4.  For a non-empty pair set the hasher is initialised with the
    descriptor length of the used view that has the least identifier. *)
Theorem hasher_dimension {F : Type} `{!FloatOps F} `{!CascadeHasherOps F}
    (regions_provider : Regions_Provider F) (pairs : gset (nat * nat))
    (p : nat * nat) :
  p ∈ pairs →
  ∃ I0,
    run_hasher regions_provider pairs =
      Init CascadeHasher_new (DescriptorLength (get regions_provider I0)) ∧
    I0 ∈ used_index pairs ∧
    ∀ I, I ∈ used_index pairs → I0 ≤ I.
Proof.
  intros Hp. unfold run_hasher.
  pose proof (set_iter_increasing (used_index pairs)) as Hsorted.
  assert (p.1 ∈ set_iter (used_index pairs)) as Hin.
  { apply elem_of_set_iter, elem_of_used_index. exists p. auto. }
  destruct (set_iter (used_index pairs)) as [|I0 used] eqn:Hused.
  { by apply elem_of_nil in Hin. }
  exists I0. split_and!.
  - done.
  - apply elem_of_set_iter. rewrite Hused. apply list_elem_of_here.
  - intros I HI. apply elem_of_set_iter in HI. rewrite Hused in HI.
    apply StronglySorted_cons in Hsorted as [Hall _].
    rewrite Forall_forall in Hall.
    apply elem_of_cons in HI as [->|HI]; [done|]. specialize (Hall I HI). lia.
Qed.

(** With the pairs (4,1) and (1,0) the least used view is 0. *)
Lemma hasher_dimension_witness :
  (4, 1) ∈ ({[ (4, 1); (1, 0) ]} : gset (nat * nat)) ∧
  ∃ I0,
    run_hasher Reference.provider {[ (4, 1); (1, 0) ]} =
      Init CascadeHasher_new (DescriptorLength (get Reference.provider I0)) ∧
    I0 ∈ used_index {[ (4, 1); (1, 0) ]} ∧
    ∀ I, I ∈ used_index {[ (4, 1); (1, 0) ]} → I0 ≤ I.
Proof.
  assert ((4, 1) ∈ ({[ (4, 1); (1, 0) ]} : gset (nat * nat))) as Hin.
  { apply elem_of_union. left. by apply elem_of_singleton. }
  split; [exact Hin|].
  exact (hasher_dimension Reference.provider {[ (4, 1); (1, 0) ]} (4, 1) Hin).
Defined.

(** ** The size of a stored match list (lines 168-221) *)

Lemma NoDup_bounded_length (l : list nat) (n : nat) :
  NoDup l → (∀ x, x ∈ l → x < n) → length l ≤ n.
Proof.
  intros Hnd Hlt. rewrite <- (length_seq n 0).
  apply submseteq_length, NoDup_submseteq; [done|].
  intros x Hx. apply elem_of_seq. specialize (Hlt x Hx). lia.
Qed.

(** X5.  A list stored by a run for the pair [(I, J)] is not empty, has at
    most one match per descriptor of [J], and at most one match per group of
    candidates returned by the engine. *)
Theorem match_list_bound {F : Type} `{!FloatOps F} `{!CascadeHasherOps F}
    `{!MatchFilters F} `{!CascadeHasherLaws F} `{!MatchFiltersLaws F}
    (sT : ScalarT) (regions_provider : Regions_Provider F) (sched : Schedule)
    (fDistRatio : F) (pairs : gset (nat * nat))
    (map_PutativesMatches0 : gmap (nat * nat) IndMatches)
    (my_progress_bar0 : option C_Progress)
    (I J : nat) (matches : IndMatches) :
  Schedule_valid sched →
  map_PutativesMatches0 !! (I, J) = None →
  map_PutativesMatches
    (impl_Match sT regions_provider sched fDistRatio pairs
       map_PutativesMatches0 my_progress_bar0) !! (I, J) = Some matches →
  0 < length matches ≤ RegionCount (get regions_provider J) ∧
  length matches ≤
    length (pair_candidates sT regions_provider (run_hasher regions_provider pairs)
              (run_hashed_base sT regions_provider sched pairs) I J).2 `div` 2.
Proof.
  intros Hvalid Hnone Hfinal.
  pose proof (impl_Match_progressed sT regions_provider sched fDistRatio pairs
                map_PutativesMatches0 my_progress_bar0 Hvalid) as Hp.
  destruct (prog_new _ _ _ _ Hp _ _ Hfinal) as [Hold|(_ & _ & Hent)].
  { simpl in Hold. congruence. }
  apply group_entry_Some in Hent as (-> & Hne & _ & _). simpl in *.
  split_and!.
  - match goal with |- 0 < length ?l => destruct l; [done|simpl; lia] end.
  - rewrite <- (length_fmap j_). apply NoDup_bounded_length.
    + apply NoDup_pair_matches_queries; apply _.
    + intros q (m & -> & Hm)%list_elem_of_fmap.
      by destruct (pair_matches_in_range sT regions_provider fDistRatio _ _ I J m Hm).
  - etrans; [apply submseteq_length, pair_matches_sub; apply _|].
    unfold ratio_matches, nn_ratio_indexes, NNdistanceRatio.
    rewrite length_fmap.
    etrans; [apply length_filter|]. by rewrite length_seq.
Qed.

(** The list stored for (0,1) on the reference instance has two matches;
    view 1 has three descriptors. *)
Lemma match_list_bound_witness :
  Schedule_valid sequential ∧
  map_PutativesMatches
    (impl_Match ScalarT_uchar Reference.provider sequential (Qmake 4 5)
       {[ (0, 1) ]} ∅ None) !! (0, 1) = Some [mkIndMatch 0 0; mkIndMatch 1 2] ∧
  0 < length [mkIndMatch 0 0; mkIndMatch 1 2] ≤ RegionCount (get Reference.provider 1).
Proof.
  split; [exact ReferenceLaws.sequential_valid|]. split; [reflexivity|].
  refine (proj1 (match_list_bound ScalarT_uchar Reference.provider sequential
                   (Qmake 4 5) {[ (0, 1) ]} ∅ None 0 1
                   [mkIndMatch 0 0; mkIndMatch 1 2]
                   ReferenceLaws.sequential_valid _ _)); reflexivity.
Defined.

(** ** The progress sink (lines 47-49, 131, 138, 153, 160, 222) *)

Section sink.
Context {F : Type} `{!FloatOps F} `{!CascadeHasherOps F} `{!MatchFilters F}.
Context (sT : ScalarT).
Context (regions_provider : Regions_Provider F).
Context (sched : Schedule).
Context (fDistRatio : F).
Context (cascade_hasher : CascadeHasher).
Context (hashed_base_ : gmap nat HashedDescriptions).

Lemma foldl_polls I Js st :
  polls (my_progress_bar
    (foldl (match_pair sT regions_provider fDistRatio cascade_hasher hashed_base_ I)
       st Js)) =
  polls (my_progress_bar st) + length Js.
Proof.
  revert st. induction Js as [|J Js IH]; intros st; [simpl; lia|].
  cbn [foldl]. rewrite IH.
  destruct (match_pair_cases sT regions_provider fDistRatio cascade_hasher
              hashed_base_ I J st) as [-> | ->]; simpl.
  - lia.
  - rewrite offer_bar. simpl. lia.
Qed.

Lemma match_groups_polls gs st :
  Schedule_valid sched →
  polls (my_progress_bar
    (match_groups sT regions_provider sched fDistRatio cascade_hasher hashed_base_
       gs st)) ≤
  polls (my_progress_bar st) + checkpoints regions_provider gs ∧
  (never_canceled (my_progress_bar st) →
   polls (my_progress_bar
     (match_groups sT regions_provider sched fDistRatio cascade_hasher hashed_base_
        gs st)) =
   polls (my_progress_bar st) + checkpoints regions_provider gs).
Proof.
  intros Hvalid. revert st. induction gs as [|[I js] gs IH]; intros st.
  - unfold checkpoints. simpl. split; [lia|intros; lia].
  - unfold checkpoints. rewrite fmap_cons. cbn [sum_list sum_list_with].
    fold (checkpoints regions_provider gs). cbn [match_groups fst snd].
    unfold id.
    assert (length (visited sched I js) = length js) as Hlen
      by (by rewrite (visited_Permutation sched I js Hvalid)).
    destruct (hasBeenCanceled (my_progress_bar st)) eqn:Hc.
    + split.
      * simpl. case_decide; lia.
      * intros Hnever. unfold hasBeenCanceled in Hc. by rewrite Hnever in Hc.
    + case_decide as Hcount.
      * destruct (IH (with_bar (advance (length js)) (with_bar polled st)))
          as [Hle Heq].
        simpl in *. split; [lia|]. intros Hnever. rewrite Heq; [lia|done].
      * unfold match_group. fold (visited sched I js).
        match goal with |- context [match_groups _ _ _ _ _ _ gs ?s] =>
          destruct (IH s) as [Hle Heq];
          assert (polls (my_progress_bar s) =
                  S (polls (my_progress_bar st)) + length js) as Hs
            by (subst; rewrite foldl_polls, Hlen; simpl; lia);
          assert (hasBeenCanceled_at (my_progress_bar s) =
                  hasBeenCanceled_at (my_progress_bar st)) as Ho
            by (rewrite (prog_oracle _ _ _ _
                           (progressed_foldl sT regions_provider fDistRatio
                              cascade_hasher hashed_base_ I _ _)); done)
        end.
        split; [lia|]. intros Hnever. rewrite Heq; [lia|].
        intros t. rewrite Ho. apply Hnever.
Qed.
End sink.

Lemma checkpoints_bounds {F : Type} (regions_provider : Regions_Provider F)
    (gs : list (nat * list nat)) :
  length gs ≤ checkpoints regions_provider gs ≤ length gs + length (tasks gs).
Proof.
  induction gs as [|[I js] gs IH]; [unfold checkpoints; simpl; lia|].
  rewrite tasks_cons, length_app, length_fmap.
  unfold checkpoints in *. rewrite fmap_cons. cbn [sum_list sum_list_with length].
  simpl. case_decide; lia.
Qed.

(** X6.  After a run of [impl::Match] the sink announces as many units as
    there are pairs and has counted at most that many.  It has been asked for
    cancellation at most once per group plus once per pair; when it never
    reports one, exactly once per group plus once per pair whose first view
    has descriptors. *)
Theorem sink_accounting {F : Type} `{!FloatOps F} `{!CascadeHasherOps F}
    `{!MatchFilters F}
    (sT : ScalarT) (regions_provider : Regions_Provider F) (sched : Schedule)
    (fDistRatio : F) (pairs : gset (nat * nat))
    (map_PutativesMatches0 : gmap (nat * nat) IndMatches)
    (my_progress_bar0 : option C_Progress) :
  Schedule_valid sched →
  let before := default C_Progress_dummy my_progress_bar0 in
  let after :=
    my_progress_bar
      (impl_Match sT regions_provider sched fDistRatio pairs
         map_PutativesMatches0 my_progress_bar0) in
  let groups := map_iter (map_Pairs pairs) in
  expected_count after = size pairs ∧
  count after ≤ expected_count after ∧
  polls after ≤ polls before + checkpoints regions_provider groups ∧
  checkpoints regions_provider groups ≤ length groups + size pairs ∧
  (never_canceled before →
   polls after = polls before + checkpoints regions_provider groups).
Proof.
  intros Hvalid before after groups.
  pose proof (impl_Match_progressed sT regions_provider sched fDistRatio pairs
                map_PutativesMatches0 my_progress_bar0 Hvalid) as Hp.
  pose proof (prog_expected _ _ _ _ Hp) as Hexp.
  pose proof (prog_count _ _ _ _ Hp) as Hcount.
  rewrite length_Pair_Set_iter in Hcount. simpl in Hexp, Hcount.
  fold after in Hexp, Hcount.
  destruct (match_groups_polls sT regions_provider sched fDistRatio
              (run_hasher regions_provider pairs)
              (run_hashed_base sT regions_provider sched pairs) groups
              (mkState map_PutativesMatches0 (restart (size pairs) before) [])
              Hvalid) as [Hle Heq].
  simpl in Hle, Heq.
  split_and!.
  - done.
  - lia.
  - exact Hle.
  - pose proof (checkpoints_bounds regions_provider groups) as Hb.
    subst groups. rewrite length_tasks_map_Pairs in Hb. lia.
  - intros Hnever. apply Heq. exact Hnever.
Qed.

(** On the reference instance with the pairs (0,1), (0,3), (2,1) and (1,0):
    three groups, the one of view 2 without descriptors; six queries. *)
Lemma sink_accounting_witness :
  Schedule_valid sequential ∧
  checkpoints Reference.provider
    (map_iter (map_Pairs {[ (0, 1); (0, 3); (2, 1); (1, 0) ]})) = 6 ∧
  polls (my_progress_bar
    (impl_Match ScalarT_uchar Reference.provider sequential (Qmake 4 5)
       {[ (0, 1); (0, 3); (2, 1); (1, 0) ]} ∅ None)) = 6.
Proof.
  split; [exact ReferenceLaws.sequential_valid|]. split; [by vm_compute|].
  destruct (sink_accounting ScalarT_uchar Reference.provider sequential (Qmake 4 5)
              {[ (0, 1); (0, 3); (2, 1); (1, 0) ]} ∅ None
              ReferenceLaws.sequential_valid) as (_ & _ & _ & _ & Hpolls).
  rewrite (Hpolls (λ _, eq_refl)). by vm_compute.
Defined.

(** ** The matrix of the zero-mean descriptor (lines 77-102) *)

(** X7.  When all used views have descriptors of the same length [D] and the
    engine reduces a matrix with rows to a vector with one coefficient per
    column, [matForZeroMean] is a matrix with one row per used view and [D]
    columns, whatever the number of descriptors of each view. *)
Theorem matForZeroMean_shape {F : Type} `{!FloatOps F} `{!CascadeHasherOps F}
    (sT : ScalarT) (regions_provider : Regions_Provider F)
    (used : list nat) (D : nat) :
  (∀ I, I ∈ used → DescriptorLength (get regions_provider I) = D) →
  (∀ mat, 0 < mat_rows mat → length (GetZeroMeanDescriptor sT mat) = mat_cols mat) →
  length (matForZeroMean_of sT regions_provider used) = length used ∧
  Forall (λ row, length row = D) (matForZeroMean_of sT regions_provider used).
Proof.
  intros Huniform Hengine. rewrite matForZeroMean_of_rows. split.
  - by rewrite length_fmap.
  - apply Forall_fmap, Forall_forall. intros I HI. simpl.
    assert (dimension0 regions_provider used = D) as ->.
    { unfold dimension0. apply Huniform.
      destruct used as [|I0 used']; [by apply elem_of_nil in HI|].
      apply list_elem_of_here. }
    unfold summary_row. case_decide as Hcount.
    + rewrite Hengine by done. simpl. by apply Huniform.
    + apply length_replicate.
Qed.

Lemma column_means_length (rows : list (list Q)) (first : list Q) :
  head rows = Some first → length (Reference.column_means rows) = length first.
Proof.
  destruct rows as [|r rows]; [done|]. intros [= ->].
  unfold Reference.column_means. by rewrite length_fmap, length_seq.
Qed.

(** The views 0, 1 and 2 of the reference instance have descriptors of
    length 2; view 2 has none. *)
Lemma matForZeroMean_shape_witness :
  (∀ I, I ∈ [0; 1; 2] → DescriptorLength (get Reference.provider I) = 2) ∧
  length (matForZeroMean_of ScalarT_uchar Reference.provider [0; 1; 2]) = 3 ∧
  Forall (λ row, length row = 2)
    (matForZeroMean_of ScalarT_uchar Reference.provider [0; 1; 2]).
Proof.
  assert (∀ I, I ∈ [0; 1; 2] → DescriptorLength (get Reference.provider I) = 2)
    as Huniform.
  { intros I HI. repeat (apply elem_of_cons in HI as [->|HI]; [reflexivity|]).
    by apply elem_of_nil in HI. }
  split; [exact Huniform|].
  apply (matForZeroMean_shape ScalarT_uchar Reference.provider [0; 1; 2] 2 Huniform).
  intros mat Hrows. simpl.
  destruct (mat_rows mat) as [|n] eqn:Hn; [lia|].
  rewrite (column_means_length _ (inject_Z <$> Reference.row mat 0)).
  - unfold Reference.row. by rewrite !length_fmap, length_seq.
  - reflexivity.
Defined.

(** ** Runs compared (lines 128-224, 228-271) *)

Lemma group_entry_schedule {F : Type} `{!FloatOps F} `{!CascadeHasherOps F}
    `{!MatchFilters F}
    (sT : ScalarT) (regions_provider : Regions_Provider F) (sched1 sched2 : Schedule)
    (fDistRatio : F) (pairs : gset (nat * nat)) :
  Schedule_valid sched1 → Schedule_valid sched2 →
  group_entry sT regions_provider fDistRatio (run_hasher regions_provider pairs)
    (run_hashed_base sT regions_provider sched1 pairs) =
  group_entry sT regions_provider fDistRatio (run_hasher regions_provider pairs)
    (run_hashed_base sT regions_provider sched2 pairs).
Proof.
  intros H1 H2. unfold run_hashed_base.
  by rewrite (hashed_base_of_schedule sT regions_provider sched1 sched2).
Qed.

Lemma merged_idempotent (entry : nat * nat → option IndMatches) (T : list (nat * nat))
    (m m' : gmap (nat * nat) IndMatches) :
  (∀ k, m' !! k = merged entry T m k) →
  ∀ k, merged entry T m' k = m' !! k.
Proof.
  intros Hm k. unfold merged at 1. rewrite Hm. unfold merged.
  destruct (m !! k); [done|]. case_decide; [|done]. by destruct (entry k).
Qed.

Lemma impl_Match_rerun {F : Type} `{!FloatOps F} `{!CascadeHasherOps F}
    `{!MatchFilters F}
    (sT : ScalarT) (regions_provider : Regions_Provider F) (sched1 sched2 : Schedule)
    (fDistRatio : F) (pairs : gset (nat * nat))
    (map_PutativesMatches0 : gmap (nat * nat) IndMatches)
    (bar1 bar2 : option C_Progress) :
  Schedule_valid sched1 → Schedule_valid sched2 →
  never_canceled (default C_Progress_dummy bar1) →
  never_canceled (default C_Progress_dummy bar2) →
  map_PutativesMatches
    (impl_Match sT regions_provider sched2 fDistRatio pairs
       (map_PutativesMatches
          (impl_Match sT regions_provider sched1 fDistRatio pairs
             map_PutativesMatches0 bar1)) bar2) =
  map_PutativesMatches
    (impl_Match sT regions_provider sched1 fDistRatio pairs
       map_PutativesMatches0 bar1).
Proof.
  intros Hv1 Hv2 Hn1 Hn2.
  destruct (impl_Match_exact sT regions_provider sched1 fDistRatio pairs
              map_PutativesMatches0 bar1 Hv1 Hn1) as [Hmap1 _].
  apply map_eq. intros k.
  destruct (impl_Match_exact sT regions_provider sched2 fDistRatio pairs
              (map_PutativesMatches
                 (impl_Match sT regions_provider sched1 fDistRatio pairs
                    map_PutativesMatches0 bar1)) bar2 Hv2 Hn2) as [Hmap2 _].
  rewrite Hmap2.
  rewrite (group_entry_schedule sT regions_provider sched2 sched1) by done.
  by apply (merged_idempotent _ _ map_PutativesMatches0).
Qed.

(** X8.  Matching a second time, with the container that the first call
    filled, leaves this container as it is: the runs need not use the same
    schedule, and neither is cancelled. *)
Theorem rerun_changes_nothing {F : Type} `{!FloatOps F} `{!CascadeHasherOps F}
    `{!MatchFilters F} `{!TypeInfo}
    (distRatio : F) (sched1 sched2 : Schedule)
    (regions_provider : option (Regions_Provider F))
    (pairs : gset (nat * nat))
    (map_PutativesMatches0 : gmap (nat * nat) IndMatches)
    (bar1 bar2 : option C_Progress) :
  Schedule_valid sched1 → Schedule_valid sched2 →
  never_canceled (default C_Progress_dummy bar1) →
  never_canceled (default C_Progress_dummy bar2) →
  let this := Cascade_Hashing_Matcher_Regions_new distRatio in
  let first :=
    Cascade_Hashing_Matcher_Regions_Match this sched1 regions_provider pairs
      map_PutativesMatches0 bar1 in
  out_matches
    (Cascade_Hashing_Matcher_Regions_Match this sched2 regions_provider pairs
       (out_matches first) bar2) =
  out_matches first.
Proof.
  intros Hv1 Hv2 Hn1 Hn2 this first. subst first.
  unfold Cascade_Hashing_Matcher_Regions_Match.
  destruct regions_provider as [provider|]; [|done].
  destruct (IsBinary provider); [done|].
  repeat case_decide; simpl; try done; by apply impl_Match_rerun.
Qed.

(** The reference instance matched in index order, then again in reverse
    order. *)
Lemma rerun_changes_nothing_witness :
  Schedule_valid sequential ∧ Schedule_valid Reference.reversed ∧
  never_canceled C_Progress_dummy ∧
  out_matches
    (Cascade_Hashing_Matcher_Regions_Match
       (Cascade_Hashing_Matcher_Regions_new (Qmake 4 5)) Reference.reversed
       (Some Reference.provider) {[ (0, 1); (1, 0); (0, 2) ]}
       (out_matches
          (Cascade_Hashing_Matcher_Regions_Match
             (Cascade_Hashing_Matcher_Regions_new (Qmake 4 5)) sequential
             (Some Reference.provider) {[ (0, 1); (1, 0); (0, 2) ]} ∅ None))
       None) =
  out_matches
    (Cascade_Hashing_Matcher_Regions_Match
       (Cascade_Hashing_Matcher_Regions_new (Qmake 4 5)) sequential
       (Some Reference.provider) {[ (0, 1); (1, 0); (0, 2) ]} ∅ None).
Proof.
  split; [exact ReferenceLaws.sequential_valid|].
  split; [exact ReferenceLaws.reversed_valid|].
  split; [exact (λ _, eq_refl)|].
  exact (rerun_changes_nothing (Qmake 4 5) sequential Reference.reversed
           (Some Reference.provider) {[ (0, 1); (1, 0); (0, 2) ]} ∅ None None
           ReferenceLaws.sequential_valid ReferenceLaws.reversed_valid
           (λ _, eq_refl) (λ _, eq_refl)).
Defined.

(** X9.  Whatever the sink reports during a run, every entry of the
    resulting container is also an entry, with the same match list, of the
    container that a run without cancellation produces from the same
    inputs. *)
Theorem partial_results_consistent {F : Type} `{!FloatOps F} `{!CascadeHasherOps F}
    `{!MatchFilters F}
    (sT : ScalarT) (regions_provider : Regions_Provider F) (sched1 sched2 : Schedule)
    (fDistRatio : F) (pairs : gset (nat * nat))
    (map_PutativesMatches0 : gmap (nat * nat) IndMatches)
    (bar_any bar_full : option C_Progress) (k : nat * nat) (matches : IndMatches) :
  Schedule_valid sched1 → Schedule_valid sched2 →
  never_canceled (default C_Progress_dummy bar_full) →
  map_PutativesMatches
    (impl_Match sT regions_provider sched1 fDistRatio pairs
       map_PutativesMatches0 bar_any) !! k = Some matches →
  map_PutativesMatches
    (impl_Match sT regions_provider sched2 fDistRatio pairs
       map_PutativesMatches0 bar_full) !! k = Some matches.
Proof.
  intros Hv1 Hv2 Hnever Hpartial.
  pose proof (impl_Match_progressed sT regions_provider sched1 fDistRatio pairs
                map_PutativesMatches0 bar_any Hv1) as Hp.
  destruct (impl_Match_exact sT regions_provider sched2 fDistRatio pairs
              map_PutativesMatches0 bar_full Hv2 Hnever) as [Hmap _].
  rewrite Hmap. unfold merged.
  destruct (prog_new _ _ _ _ Hp _ _ Hpartial) as [Hold|(Hnone & Hin & Hent)];
    simpl in *.
  - by rewrite Hold.
  - rewrite Hnone, decide_True by done.
    by rewrite (group_entry_schedule sT regions_provider sched2 sched1).
Qed.

(** A run of the reference instance cancelled at the head of the second
    group has the entry of (0,1), and so has the complete run. *)
Lemma partial_results_consistent_witness :
  Schedule_valid sequential ∧ never_canceled C_Progress_dummy ∧
  map_PutativesMatches
    (impl_Match ScalarT_uchar Reference.provider sequential (Qmake 4 5)
       {[ (0, 1); (1, 0) ]} ∅ (Some (Reference.cancel_from 2))) =
  {[ (0, 1) := [mkIndMatch 0 0; mkIndMatch 1 2] ]} ∧
  map_PutativesMatches
    (impl_Match ScalarT_uchar Reference.provider sequential (Qmake 4 5)
       {[ (0, 1); (1, 0) ]} ∅ None) !! (0, 1) =
  Some [mkIndMatch 0 0; mkIndMatch 1 2].
Proof.
  split; [exact ReferenceLaws.sequential_valid|].
  split; [exact (λ _, eq_refl)|]. split; [by vm_compute|].
  refine (partial_results_consistent ScalarT_uchar Reference.provider sequential
            sequential (Qmake 4 5) {[ (0, 1); (1, 0) ]} ∅
            (Some (Reference.cancel_from 2)) None (0, 1)
            [mkIndMatch 0 0; mkIndMatch 1 2]
            ReferenceLaws.sequential_valid ReferenceLaws.sequential_valid
            (λ _, eq_refl) _).
  by vm_compute.
Defined.
